(** * sequence-api: the subsequence generation-and-persistence pipeline

    A shallow embedding of [app/services/subsequence_service.py] and
    [app/repositories/subsequence_repo.py], together with the part of the
    document store (a MongoDB database with the indexes of
    [app/db/mongo.py]) that these two modules talk to.

    Python integers are unbounded and are modelled by [Z]; the store
    takes those that fit 8 bytes, and the driver raises on the others.
    Python [str] values are modelled by [string]; a [set] by stdpp's
    [gset]; a collection of the store by the list of its documents in
    insertion order. *)

From Stdlib Require Import ZArith List Ascii String Lia Permutation Sorted.
From Stdlib Require Import DecimalString DecimalZ.
From stdpp Require Import base decidable list gmap sets sorting.

Local Open Scope Z_scope.

(** ** Canonicalizer *)

(** [sorted(set(items))]: the distinct values, in ascending order.  The
    iteration order of a Python set is unspecified; [elements] stands for
    it, and [sorted] makes the result independent of it. *)
Definition canonical_sequence (items : list Z) : list Z :=
  merge_sort Z.le (elements (list_to_set items : gset Z)).

(** ** Subsequence enumerator *)

(** [itertools.combinations(items, k)]: the k-element selections of
    [items], positions increasing, in lexicographic order of positions. *)
Fixpoint combinations (items : list Z) (k : nat) : list (list Z) :=
  match k with
  | O => [[]]
  | S k' =>
      match items with
      | [] => []
      | x :: rest =>
          map (cons x) (combinations rest k') ++ combinations rest k
      end
  end.

(** [for k in range(1, n + 1): for combo in combinations(items, k): yield
    list(combo)], the generator read to its end. *)
Definition generate_subsequences (items : list Z) : list (list Z) :=
  let n := length items in
  concat (map (combinations items) (seq 1 n)).

(** ** SHA-256, as [hashlib.sha256] computes it (FIPS 180-4) *)

Module SHA256.

Definition w32 (x : Z) : Z := x mod 2 ^ 32.
Definition add32 (x y : Z) : Z := w32 (x + y).
Definition rotr (n x : Z) : Z :=
  Z.lor (Z.shiftr x n) (w32 (Z.shiftl x (32 - n))).
Definition shr (n x : Z) : Z := Z.shiftr x n.

Definition Ch (x y z : Z) : Z :=
  Z.lxor (Z.land x y) (Z.land (w32 (Z.lnot x)) z).
Definition Maj (x y z : Z) : Z :=
  Z.lxor (Z.land x y) (Z.lxor (Z.land x z) (Z.land y z)).
Definition Sigma0 (x : Z) : Z :=
  Z.lxor (rotr 2 x) (Z.lxor (rotr 13 x) (rotr 22 x)).
Definition Sigma1 (x : Z) : Z :=
  Z.lxor (rotr 6 x) (Z.lxor (rotr 11 x) (rotr 25 x)).
Definition sigma0 (x : Z) : Z :=
  Z.lxor (rotr 7 x) (Z.lxor (rotr 18 x) (shr 3 x)).
Definition sigma1 (x : Z) : Z :=
  Z.lxor (rotr 17 x) (Z.lxor (rotr 19 x) (shr 10 x)).

(** The round constants, four rounds to a row. *)
Definition K_rows : list (list Z) :=
  [ [0x428a2f98; 0x71374491; 0xb5c0fbcf; 0xe9b5dba5];
    [0x3956c25b; 0x59f111f1; 0x923f82a4; 0xab1c5ed5];
    [0xd807aa98; 0x12835b01; 0x243185be; 0x550c7dc3];
    [0x72be5d74; 0x80deb1fe; 0x9bdc06a7; 0xc19bf174];
    [0xe49b69c1; 0xefbe4786; 0x0fc19dc6; 0x240ca1cc];
    [0x2de92c6f; 0x4a7484aa; 0x5cb0a9dc; 0x76f988da];
    [0x983e5152; 0xa831c66d; 0xb00327c8; 0xbf597fc7];
    [0xc6e00bf3; 0xd5a79147; 0x06ca6351; 0x14292967];
    [0x27b70a85; 0x2e1b2138; 0x4d2c6dfc; 0x53380d13];
    [0x650a7354; 0x766a0abb; 0x81c2c92e; 0x92722c85];
    [0xa2bfe8a1; 0xa81a664b; 0xc24b8b70; 0xc76c51a3];
    [0xd192e819; 0xd6990624; 0xf40e3585; 0x106aa070];
    [0x19a4c116; 0x1e376c08; 0x2748774c; 0x34b0bcb5];
    [0x391c0cb3; 0x4ed8aa4a; 0x5b9cca4f; 0x682e6ff3];
    [0x748f82ee; 0x78a5636f; 0x84c87814; 0x8cc70208];
    [0x90befffa; 0xa4506ceb; 0xbef9a3f7; 0xc67178f2] ].

Definition K : list Z := concat K_rows.

Definition H0 : list Z :=
  [ 0x6a09e667; 0xbb67ae85; 0x3c6ef372; 0xa54ff53a;
    0x510e527f; 0x9b05688c; 0x1f83d9ab; 0x5be0cd19 ].

(** Big-endian bytes of a [len]-byte quantity. *)
Fixpoint be_bytes (len : nat) (x : Z) : list Z :=
  match len with
  | O => []
  | S len' => (Z.shiftr x (8 * Z.of_nat len')) mod 256 :: be_bytes len' x
  end.

Definition be_word (bs : list Z) : Z :=
  fold_left (fun acc b => acc * 256 + b) bs 0.

(** Message, then the byte 0x80, then zeros up to 56 modulo 64, then the
    bit length on 8 bytes. *)
Definition pad (msg : list Z) : list Z :=
  let l := Z.of_nat (length msg) in
  let zeros := Z.to_nat ((55 - l) mod 64) in
  msg ++ 0x80 :: repeat 0 zeros ++ be_bytes 8 (8 * l).

Fixpoint words (n : nat) (bs : list Z) : list Z :=
  match n with
  | O => []
  | S n' => be_word (firstn 4 bs) :: words n' (skipn 4 bs)
  end.

(** The message schedule, most recent word first: [rev_w] holds
    W(t-1), W(t-2), ... *)
Fixpoint schedule (n : nat) (rev_w : list Z) : list Z :=
  match n with
  | O => rev_w
  | S n' =>
      let w := add32 (add32 (sigma1 (nth 1 rev_w 0)) (nth 6 rev_w 0))
                     (add32 (sigma0 (nth 14 rev_w 0)) (nth 15 rev_w 0)) in
      schedule n' (w :: rev_w)
  end.

Definition round (st : list Z) (kw : Z * Z) : list Z :=
  match st with
  | [a; b; c; d; e; f; g; h] =>
      let t1 := add32 (add32 (add32 h (Sigma1 e)) (Ch e f g))
                      (add32 (fst kw) (snd kw)) in
      let t2 := add32 (Sigma0 a) (Maj a b c) in
      [add32 t1 t2; a; b; c; add32 d t1; e; f; g]
  | _ => st
  end.

Definition compress (h : list Z) (block : list Z) : list Z :=
  let w := rev (schedule 48 (rev (words 16 block))) in
  let st := fold_left round (combine K w) h in
  map (fun p => add32 (fst p) (snd p)) (combine h st).

Fixpoint blocks (n : nat) (h : list Z) (bs : list Z) : list Z :=
  match n with
  | O => h
  | S n' => blocks n' (compress h (firstn 64 bs)) (skipn 64 bs)
  end.

Definition digest (msg : list Z) : list Z :=
  let p := pad msg in
  concat (map (be_bytes 4) (blocks (length p / 64) H0 p)).

Definition hex_digit (v : Z) : ascii :=
  if v <? 10 then ascii_of_N (Z.to_N (48 + v))
  else ascii_of_N (Z.to_N (87 + v)).

Definition hex_of_byte (b : Z) : string :=
  String (hex_digit (b / 16)) (String (hex_digit (b mod 16)) EmptyString).

Definition bytes_of_string (s : string) : list Z :=
  map (fun c => Z.of_N (N_of_ascii c)) (list_ascii_of_string s).

(** [sha256(data).hexdigest()] on the bytes of [s]. *)
Definition hexdigest (s : string) : string :=
  String.concat EmptyString (map hex_of_byte (digest (bytes_of_string s))).

End SHA256.

(** ** Content hasher *)

(** Python's [str(x)] on an [int]: decimal digits, a minus sign when
    negative. *)
Definition str (x : Z) : string := NilZero.string_of_int (Z.to_int x).

(** [sorted(items)] on a list of integers. *)
Definition sorted (items : list Z) : list Z := merge_sort Z.le items.

(** The text that is hashed: [",".join(str(x) for x in sorted(items))]. *)
Definition hash_key (items : list Z) : string :=
  String.concat "," (map str (sorted items)).

Definition _hash_items (items : list Z) : string :=
  let key := hash_key items in
  SHA256.hexdigest key.

(** ** The document store *)

(** A UTC instant, as a number of ticks. *)
Definition datetime := Z.

(** A [bson.ObjectId], held by the 24 lowercase hexadecimal digits that
    [str(oid)] prints. *)
Record ObjectId := mkObjectId { oid_hex : string }.

Definition is_hex (c : ascii) : bool :=
  let n := N_of_ascii c in
  ((48 <=? n) && (n <=? 57) || (97 <=? n) && (n <=? 102)
   || (65 <=? n) && (n <=? 70))%N.

Definition lower (c : ascii) : ascii :=
  let n := N_of_ascii c in
  if ((65 <=? n) && (n <=? 90))%N then ascii_of_N (n + 32) else c.

(** ASCII whitespace, as [bytes.fromhex] skips it: space, and the
    characters 9 to 13. *)
Definition is_space (c : ascii) : bool :=
  let n := N_of_ascii c in
  ((n =? 32) || (9 <=? n) && (n <=? 13))%N.

(** [bytes.fromhex], read back as lowercase hexadecimal digits: two
    adjacent digits make a byte, whitespace before a byte is skipped,
    anything else is a [ValueError] ([None] here). *)
Fixpoint fromhex (cs : list ascii) : option (list ascii) :=
  match cs with
  | [] => Some []
  | c :: rest =>
      if is_space c then fromhex rest
      else
        match rest with
        | d :: rest' =>
            if is_hex c && is_hex d
            then option_map (fun bytes => lower c :: lower d :: bytes)
                            (fromhex rest')
            else None
        | [] => None
        end
  end.

(** [ObjectId(s)] on a [str]: [s] has to be 24 characters long and
    accepted by [bytes.fromhex], otherwise [InvalidId] is raised ([None]
    here).  With whitespace among the 24 characters the identifier holds
    fewer than 12 bytes. *)
Definition ObjectId_of_str (s : string) : option ObjectId :=
  let cs := list_ascii_of_string s in
  if (length cs =? 24)%nat
  then option_map (fun digits => mkObjectId (string_of_list_ascii digits))
                  (fromhex cs)
  else None.

(** The conversion of the server, [$toObjectId] on a string: exactly 24
    hexadecimal digits. *)
Definition ObjectId_of_hex24 (s : string) : option ObjectId :=
  let cs := list_ascii_of_string s in
  if (length cs =? 24)%nat && forallb is_hex cs
  then Some (mkObjectId (string_of_list_ascii (map lower cs)))
  else None.

(** The [n] low hexadecimal digits of [x], most significant first. *)
Fixpoint hex_digits (n : nat) (x : N) : list ascii :=
  match n with
  | O => []
  | S n' =>
      hex_digits n' (x / 16) ++ [SHA256.hex_digit (Z.of_N (x mod 16))]
  end.

(** [ObjectId()]: a fresh identifier, drawn from a counter. *)
Definition ObjectId_new (counter : N) : ObjectId :=
  mkObjectId (string_of_list_ascii (hex_digits 24 counter)).

Definition ObjectId_eqb (a b : ObjectId) : bool :=
  String.eqb (oid_hex a) (oid_hex b).

(** What the [sequence_id] field of a stored subsequence can hold. *)
Inductive id_value : Type :=
  | IdObject (o : ObjectId)
  | IdStr (s : string).

Definition id_value_eqb (a b : id_value) : bool :=
  match a, b with
  | IdObject x, IdObject y => ObjectId_eqb x y
  | IdStr x, IdStr y => String.eqb x y
  | _, _ => false
  end.

Record SequenceDoc := mkSequenceDoc {
  seq_items : list Z;
  seq_created_at : datetime
}.

Record SubsequenceDoc := mkSubsequenceDoc {
  sub_items : list Z;
  sub_items_hash : string;
  sub_sequence_id : id_value;
  sub_created_at : datetime
}.

(** A document as the collection holds it, with its [_id]. *)
Record Stored (A : Type) := mkStored { doc_id : ObjectId; doc : A }.
Arguments mkStored {A} _ _.
Arguments doc_id {A} _.
Arguments doc {A} _.

(** [UpdateOne({"items_hash": h}, {"$setOnInsert": doc}, upsert=...)]. *)
Record UpdateOne := mkUpdateOne {
  upd_filter_items_hash : string;
  upd_setOnInsert : SubsequenceDoc;
  upd_upsert : bool
}.

Record BulkWriteResult := mkBulkWriteResult {
  upserted_count : Z;
  modified_count : Z;
  matched_count : Z
}.

(** The requests that reach the store, as the driver sends them. *)
Inductive StoreCall : Type :=
  | SeqInsertOne (d : SequenceDoc)
  | SubInsertOne (d : SubsequenceDoc)
  | SubBulkWrite (ops : list UpdateOne) (ordered : bool)
  | SubAggregate (limit : Z).

(** The state outside the program: both collections in insertion order,
    the source of fresh identifiers, the clock behind [datetime.now]
    (its successive readings and how many were taken), and the requests
    the store has received so far, oldest first. *)
Record World := mkWorld {
  sequences : list (Stored SequenceDoc);
  subsequences : list (Stored SubsequenceDoc);
  oid_counter : N;
  clock : nat -> datetime;
  clock_reads : nat;
  calls : list StoreCall
}.

Definition with_sequences (w : World) (l : list (Stored SequenceDoc)) :=
  mkWorld l (subsequences w) (oid_counter w) (clock w) (clock_reads w)
          (calls w).
Definition with_subsequences (w : World)
    (l : list (Stored SubsequenceDoc)) :=
  mkWorld (sequences w) l (oid_counter w) (clock w) (clock_reads w)
          (calls w).
Definition with_oid_counter (w : World) (c : N) :=
  mkWorld (sequences w) (subsequences w) c (clock w) (clock_reads w)
          (calls w).
Definition with_clock_reads (w : World) (r : nat) :=
  mkWorld (sequences w) (subsequences w) (oid_counter w) (clock w) r
          (calls w).
Definition with_calls (w : World) (l : list StoreCall) :=
  mkWorld (sequences w) (subsequences w) (oid_counter w) (clock w)
          (clock_reads w) l.

(** *** Exceptions and the monad of effects *)

Inductive exn : Type :=
  | ValueError (msg : string)
  | OverflowError
  | DuplicateKeyError
  | BulkWriteError
  | OperationFailure.

Inductive outcome (A : Type) : Type :=
  | Returned (a : A)
  | Raised (e : exn).
Arguments Returned {A} _.
Arguments Raised {A} _.

(** A computation runs in a world and leaves a world, also when it
    raises: what was written before an exception stays written. *)
Definition M (A : Type) : Type := World -> outcome A * World.

Definition ret {A} (a : A) : M A := fun w => (Returned a, w).
Definition raise {A} (e : exn) : M A := fun w => (Raised e, w).
Definition bind {A B} (c : M A) (k : A -> M B) : M B :=
  fun w =>
    match c w with
    | (Returned a, w') => k a w'
    | (Raised e, w') => (Raised e, w')
    end.
(** [try: c  except ...: handler]. *)
Definition catch {A} (c : M A) (handler : exn -> M A) : M A :=
  fun w =>
    match c w with
    | (Returned a, w') => (Returned a, w')
    | (Raised e, w') => handler e w'
    end.

Declare Scope effect_scope.
Delimit Scope effect_scope with effect.
Notation "'let*' x ':=' c 'in' k" := (bind c (fun x => k))
  (at level 10, x name, c at level 100, k at level 200) : effect_scope.
Notation "'do' c 'then' k" := (bind c (fun _ => k))
  (at level 10, c at level 100, k at level 200) : effect_scope.
Local Open Scope effect_scope.

(** [for x in l: body(x)]. *)
Fixpoint for_each {A} (l : list A) (body : A -> M unit) : M unit :=
  match l with
  | [] => ret tt
  | x :: rest => do body x then for_each rest body
  end.

(** *** What the store does *)

Definition log_call (c : StoreCall) : M unit :=
  fun w => (Returned tt, with_calls w (calls w ++ [c])).

Definition fresh_oid : M ObjectId :=
  fun w => (Returned (ObjectId_new (oid_counter w)),
            with_oid_counter w (oid_counter w + 1)%N).

(** [datetime.now(timezone.utc)]. *)
Definition datetime_now : M datetime :=
  fun w => (Returned (clock w (clock_reads w)),
            with_clock_reads w (S (clock_reads w))).

(** An integer that the BSON encoder of the driver accepts: one that
    fits 8 bytes, signed.  On any other it raises [OverflowError] while it
    builds the request, and nothing is sent to the store. *)
Definition bson_int (x : Z) : bool :=
  (- 2 ^ 63 <=? x) && (x <=? 2 ^ 63 - 1).

Definition bson_ints (l : list Z) : bool := forallb bson_int l.

(** [db[COL_SEQ].insert_one(doc)]; the result is [inserted_id]. *)
Definition seq_insert_one (d : SequenceDoc) : M ObjectId :=
  if bson_ints (seq_items d)
  then
    do log_call (SeqInsertOne d) then
    let* oid := fresh_oid in
    fun w => (Returned oid,
              with_sequences w (sequences w ++ [mkStored oid d]))
  else raise OverflowError.

Definition has_hash (h : string) (l : list (Stored SubsequenceDoc)) : bool :=
  existsb (fun s => String.eqb (sub_items_hash (doc s)) h) l.

(** A write into the subsequences collection, under the unique index on
    [items_hash] that [ensure_indexes] creates.  Only a document that the
    encoder accepts can be written. *)
Definition sub_store (d : SubsequenceDoc) : M ObjectId :=
  fun w =>
    if negb (bson_ints (sub_items d)) then (Raised OverflowError, w)
    else if has_hash (sub_items_hash d) (subsequences w)
    then (Raised DuplicateKeyError, w)
    else (let* oid := fresh_oid in
          fun w' => (Returned oid,
                     with_subsequences w'
                       (subsequences w' ++ [mkStored oid d]))) w.

(** [db[COL_SUB].insert_one(doc)]: the document is encoded, then sent. *)
Definition sub_insert_one (d : SubsequenceDoc) : M ObjectId :=
  if bson_ints (sub_items d)
  then do log_call (SubInsertOne d) then sub_store d
  else raise OverflowError.

(** One [UpdateOne] of a batch.  A document matching the filter is left
    as it is ([$setOnInsert] changes nothing on a match); otherwise, with
    [upsert], the document is inserted.  The answer tells what happened:
    upserted, matched, or a write error. *)
Inductive op_result : Type := OpUpserted | OpMatched | OpNothing | OpError.

Definition apply_update_one (op : UpdateOne) : M op_result :=
  fun w =>
    if has_hash (upd_filter_items_hash op) (subsequences w)
    then (Returned OpMatched, w)
    else if upd_upsert op
    then catch (do sub_store (upd_setOnInsert op) then ret OpUpserted)
               (fun e =>
                  match e with
                  | DuplicateKeyError => ret OpError
                  | _ => raise e
                  end) w
    else (Returned OpNothing, w).

Fixpoint apply_updates (ops : list UpdateOne) : M (list op_result) :=
  match ops with
  | [] => ret []
  | op :: rest =>
      let* r := apply_update_one op in
      let* rs := apply_updates rest in
      ret (r :: rs)
  end.

Definition op_result_eqb (a b : op_result) : bool :=
  match a, b with
  | OpUpserted, OpUpserted | OpMatched, OpMatched
  | OpNothing, OpNothing | OpError, OpError => true
  | _, _ => false
  end.

Definition count_result (r : op_result) (rs : list op_result) : Z :=
  Z.of_nat (length (List.filter (op_result_eqb r) rs)).

(** [db[COL_SUB].bulk_write(operations, ordered=False)]: the operations
    are encoded, then every one is attempted, here in the order of the
    list; write errors are reported together at the end.  A batch of
    more than 100,000 operations travels in several messages, each
    encoded when its turn comes; the model encodes them all at once,
    which shows only when an operation cannot be encoded. *)
Definition sub_bulk_write (ops : list UpdateOne) (ordered : bool)
  : M BulkWriteResult :=
  if forallb (fun op => bson_ints (sub_items (upd_setOnInsert op))) ops
  then
    do log_call (SubBulkWrite ops ordered) then
    let* rs := apply_updates ops in
    if 0 <? count_result OpError rs then raise BulkWriteError
    else ret (mkBulkWriteResult (count_result OpUpserted rs) 0
                                (count_result OpMatched rs))
  else raise OverflowError.

(** *** The aggregation behind [latest_grouped] *)

(** [$toObjectId]: an ObjectId is kept, a string is parsed; the whole
    aggregation fails on a string that is not 24 hexadecimal digits. *)
Definition toObjectId (v : id_value) : option ObjectId :=
  match v with
  | IdObject o => Some o
  | IdStr s => ObjectId_of_hex24 s
  end.

(** A document after [$group]. *)
Record Group := mkGroup {
  grp_id : id_value;
  grp_subsequences : list (list Z);
  grp_created_at : datetime;
  grp_sequence_oid : ObjectId
}.

(** What the cursor yields, after [$project]. *)
Record GroupedDoc := mkGroupedDoc {
  gd_sequence : list Z;
  gd_subsequences : list (list Z)
}.

(** [{"$addFields": {"sequence_oid": {"$toObjectId": "$sequence_id"}}}]. *)
Fixpoint stage_addFields (docs : list (Stored SubsequenceDoc))
  : option (list (SubsequenceDoc * ObjectId)) :=
  match docs with
  | [] => Some []
  | d :: rest =>
      match toObjectId (sub_sequence_id (doc d)), stage_addFields rest with
      | Some o, Some r => Some ((doc d, o) :: r)
      | _, _ => None
      end
  end.

(** One more document for [$group]: it joins the group of its
    [sequence_id] ([$push] of the items, [$max] of [created_at], [$first]
    of [sequence_oid]) or opens a new group after the others. *)
Fixpoint group_add (d : SubsequenceDoc) (o : ObjectId) (gs : list Group)
  : list Group :=
  match gs with
  | [] => [mkGroup (sub_sequence_id d) [sub_items d] (sub_created_at d) o]
  | g :: rest =>
      if id_value_eqb (grp_id g) (sub_sequence_id d)
      then mkGroup (grp_id g) (grp_subsequences g ++ [sub_items d])
                   (Z.max (grp_created_at g) (sub_created_at d))
                   (grp_sequence_oid g) :: rest
      else g :: group_add d o rest
  end.

Definition stage_group (docs : list (SubsequenceDoc * ObjectId))
  : list Group :=
  fold_left (fun gs p => group_add (fst p) (snd p) gs) docs [].

(** The order of [{"$sort": {"created_at": -1}}]. *)
Definition newer_first (g1 g2 : Group) : Prop :=
  grp_created_at g2 <= grp_created_at g1.

#[global] Instance newer_first_dec : RelDecision newer_first :=
  fun g1 g2 => Z_le_dec (grp_created_at g2) (grp_created_at g1).

Definition stage_sort (gs : list Group) : list Group :=
  merge_sort newer_first gs.

Definition stage_limit (limit : Z) (gs : list Group) : list Group :=
  firstn (Z.to_nat limit) gs.

(** [$lookup] into the sequences on [_id = sequence_oid], then [$unwind]:
    one document per matching sequence, none when nothing matches. *)
Definition stage_lookup_unwind (seqs : list (Stored SequenceDoc))
    (gs : list Group) : list (Group * Stored SequenceDoc) :=
  flat_map
    (fun g =>
       map (fun s => (g, s))
           (List.filter
              (fun s => ObjectId_eqb (doc_id s) (grp_sequence_oid g)) seqs))
    gs.

Definition stage_project (p : Group * Stored SequenceDoc) : GroupedDoc :=
  mkGroupedDoc (seq_items (doc (snd p))) (grp_subsequences (fst p)).

(** The pipeline up to [$unwind], where each group still carries its
    [created_at]. *)
Definition latest_groups (w : World) (limit : Z)
  : option (list (Group * Stored SequenceDoc)) :=
  if limit <=? 0 then None
  else
    match stage_addFields (subsequences w) with
    | None => None
    | Some docs =>
        Some (stage_lookup_unwind (sequences w)
                (stage_limit limit (stage_sort (stage_group docs))))
    end.

(** [db[COL_SUB].aggregate(pipeline)], the cursor read to its end.  The
    pipeline is encoded with the limit in it, then sent; [$limit] wants
    a positive number. *)
Definition sub_aggregate (limit : Z) : M (list GroupedDoc) :=
  if bson_int limit
  then
    do log_call (SubAggregate limit) then
    fun w =>
      match latest_groups w limit with
      | Some gs => (Returned (map stage_project gs), w)
      | None => (Raised OperationFailure, w)
      end
  else raise OverflowError.

(** ** Persistence gateway: [SubsequenceRepository] *)

Definition insert_sequence (items : list Z) : M string :=
  let* now := datetime_now in
  let doc := mkSequenceDoc items now in
  let* inserted_id := seq_insert_one doc in
  ret (oid_hex inserted_id).

Definition upsert_subsequence (sequence_id : string) (items : list Z)
  : M unit :=
  let h := _hash_items items in
  let seq_id_value :=
    match ObjectId_of_str sequence_id with
    | Some o => IdObject o
    | None => IdStr sequence_id
    end in
  let* now := datetime_now in
  let doc := mkSubsequenceDoc (sorted items) h seq_id_value now in
  catch (do sub_insert_one doc then ret tt)
        (fun e =>
           match e with
           | DuplicateKeyError => ret tt
           | _ => raise e
           end).

Definition insert_subsequences_bulk (sequence_id : string)
    (subsequences : list (list Z)) : M Z :=
  match subsequences with
  | [] => ret 0
  | _ =>
      let seq_id_value := IdStr sequence_id in
      let* now := datetime_now in
      let operations :=
        map (fun items =>
               let h := _hash_items items in
               let doc := mkSubsequenceDoc (sorted items) h seq_id_value
                                           now in
               mkUpdateOne h doc true)
            subsequences in
      let* result := sub_bulk_write operations false in
      ret (upserted_count result + modified_count result)
  end.

Definition latest_grouped (limit : Z) : M (list GroupedDoc) :=
  sub_aggregate limit.

(** ** Sequence service: [SubsequenceService] *)

Record CreateResult := mkCreateResult {
  id : string;
  items : list Z;
  total_subsequences : Z
}.

Record ListItem := mkListItem {
  sequence : list Z;
  sub_sequences : list (list Z)
}.

(** [format(x, ",")]: decimal digits in groups of three. *)
Fixpoint group_thousands (rev_digits : list ascii) : list ascii :=
  match rev_digits with
  | a :: b :: c :: rest =>
      match rest with
      | [] => [a; b; c]
      | _ => a :: b :: c :: ","%char :: group_thousands rest
      end
  | _ => rev_digits
  end.

Definition format_thousands (x : Z) : string :=
  let digits := list_ascii_of_string (str (Z.abs x)) in
  let body := string_of_list_ascii (rev (group_thousands (rev digits))) in
  if x <? 0 then String "-"%char body else body.

Definition empty_message : string :=
  "La secuencia debe tener al menos un elemento".

Definition too_large_message (n limit_n total_subs : Z) : string :=
  ("La secuencia es demasiado grande: n=" ++ str n
   ++ " (límite " ++ str limit_n ++ "). "
   ++ "El máximo permitido es " ++ format_thousands total_subs
   ++ " subsecuencias.")%string.

(** The timing with [time.perf_counter] and the log lines touch neither
    the result nor the store and are left out. *)
Definition create_from_sequence (items : list Z) : M CreateResult :=
  let canon := canonical_sequence items in
  let n := Z.of_nat (length canon) in
  if n =? 0 then raise (ValueError empty_message)
  else if n >? 18 then
    let limit_n := 18 in
    let total_subs := 2 ^ limit_n - 1 in
    raise (ValueError (too_large_message n limit_n total_subs))
  else
    let* seq_id := insert_sequence canon in
    let subsequences := generate_subsequences canon in
    let total_count := Z.of_nat (length subsequences) in
    let bulk_threshold := 100 in
    do (if total_count >=? bulk_threshold
        then do insert_subsequences_bulk seq_id subsequences then ret tt
        else for_each subsequences
               (fun subseq => upsert_subsequence seq_id subseq))
    then ret (mkCreateResult seq_id canon total_count).

(** Python's order on lists of integers: lexicographic. *)
Fixpoint list_leb (a b : list Z) : bool :=
  match a, b with
  | [], _ => true
  | _ :: _, [] => false
  | x :: a', y :: b' =>
      if x <? y then true
      else if x =? y then list_leb a' b'
      else false
  end.

(** The order of the sort key [(len(s), s)]. *)
Definition key_leb (a b : list Z) : bool :=
  let la := length a in
  let lb := length b in
  (la <? lb)%nat || ((la =? lb)%nat && list_leb a b).

Definition key_le (a b : list Z) : Prop := key_leb a b = true.

#[global] Instance key_le_dec : RelDecision key_le :=
  fun a b => bool_eq_dec (key_leb a b) true.

(** [subs.sort(key=lambda s: (len(s), s))]. *)
Definition sort_by_key (subs : list (list Z)) : list (list Z) :=
  merge_sort key_le subs.

Definition list_latest (limit : Z) : M (list ListItem) :=
  let* docs := latest_grouped limit in
  ret (map (fun d =>
              let subs := sort_by_key (gd_subsequences d) in
              mkListItem (gd_sequence d) subs)
           docs).

(** A store with nothing in it, whose clock reads 1000, 1001, ... *)
Definition empty_world : World :=
  mkWorld [] [] 0 (fun i => 1000 + Z.of_nat i) 0 [].

(** ** Orders used to state the properties *)

(** Strictly before, in Python's order on lists. *)
Definition list_lt (a b : list Z) : Prop := list_leb a b = true /\ a <> b.

(** Strictly before, in the order of the key [(len(s), s)]. *)
Definition key_lt (a b : list Z) : Prop := key_le a b /\ a <> b.

(** Shorter first; at equal length, lexicographically first. *)
Definition size_then_lex (a b : list Z) : Prop :=
  (length a < length b)%nat \/ (length a = length b /\ list_lt a b).

(** ** Notions used to state the properties of the store *)

Fixpoint no_comma (s : string) : bool :=
  match s with
  | EmptyString => true
  | String c s' => negb (Ascii.eqb c ",") && no_comma s'
  end.

(** A text that can stand between two commas. *)
Definition field (s : string) : Prop :=
  no_comma s = true /\ s <> EmptyString.

(** The subsequences collection and the identifier counter after one
    write that respects the unique index: nothing changes when a document
    with the hash of [d] is already stored. *)
Definition put_if_absent (st : list (Stored SubsequenceDoc) * N)
    (d : SubsequenceDoc) : list (Stored SubsequenceDoc) * N :=
  if has_hash (sub_items_hash d) (fst st) then st
  else (fst st ++ [mkStored (ObjectId_new (snd st)) d], (snd st + 1)%N).

Definition put_all (st : list (Stored SubsequenceDoc) * N)
    (docs : list SubsequenceDoc) : list (Stored SubsequenceDoc) * N :=
  fold_left put_if_absent docs st.

(** The document that [upsert_subsequence] builds. *)
Definition individual_doc (sequence_id : string) (now : datetime)
    (items : list Z) : SubsequenceDoc :=
  mkSubsequenceDoc (sorted items) (_hash_items items)
    match ObjectId_of_str sequence_id with
    | Some o => IdObject o
    | None => IdStr sequence_id
    end
    now.

(** The documents of successive calls, each with its own clock reading. *)
Fixpoint individual_docs (sequence_id : string) (clock : nat -> datetime)
    (reads : nat) (l : list (list Z)) : list SubsequenceDoc :=
  match l with
  | [] => []
  | items :: rest =>
      individual_doc sequence_id (clock reads) items
      :: individual_docs sequence_id clock (S reads) rest
  end.

(** The document and the operation that [insert_subsequences_bulk]
    builds for one subsequence. *)
Definition bulk_doc (sequence_id : string) (now : datetime)
    (items : list Z) : SubsequenceDoc :=
  mkSubsequenceDoc (sorted items) (_hash_items items) (IdStr sequence_id)
                   now.

Definition bulk_op (sequence_id : string) (now : datetime)
    (items : list Z) : UpdateOne :=
  mkUpdateOne (_hash_items items) (bulk_doc sequence_id now items) true.

Definition hashes (l : list (Stored SubsequenceDoc)) : list string :=
  map (fun s => sub_items_hash (doc s)) l.



(** Every stored [sequence_id] is an ObjectId or parses as one. *)
Definition sequence_ids_convertible (w : World) : Prop :=
  Forall (fun s => toObjectId (sub_sequence_id (doc s)) <> None)
         (subsequences w).




(** ** Notions used to state further properties *)

(** One of [0123456789abcdef]. *)
Definition lower_hex (c : ascii) : bool :=
  let n := N_of_ascii c in
  ((48 <=? n) && (n <=? 57) || (97 <=? n) && (n <=? 102))%N.

(** ** Request validation: the validator of [SequenceIn] *)

Definition positive_message (idx : Z) : string :=
  ("El ID en posición " ++ str idx ++ " debe ser positivo (>0)")%string.

(** [for idx, item in enumerate(v): if item <= 0: raise ValueError(...)],
    from position [idx] on. *)
Fixpoint positive_ids_loop (idx : Z) (v : list Z) : option exn :=
  match v with
  | [] => None
  | item :: rest =>
      if item <=? 0 then Some (ValueError (positive_message idx))
      else positive_ids_loop (idx + 1) rest
  end.

(** The field validator of [SequenceIn.items]. *)
Definition validate_positive_ids (v : list Z) : outcome (list Z) :=
  match positive_ids_loop 0 v with
  | Some e => Raised e
  | None => Returned v
  end.

(** ** The route [POST /sequences] *)

(** What an endpoint hands back to the framework: a result, an
    [HTTPException], or an exception it did not catch. *)
Inductive response (A : Type) : Type :=
  | Ok (a : A)
  | HTTPException (status_code : Z) (detail : string)
  | Unhandled (e : exn).
Arguments Ok {A} _.
Arguments HTTPException {A} _ _.
Arguments Unhandled {A} _.

(** The body of [create_sequences], on the items of a validated
    payload: a [ValueError] of the service becomes a 422 whose detail is
    [str(e)]; anything else goes through. *)
Definition create_sequences (payload_items : list Z)
  : World -> response CreateResult * World :=
  fun w =>
    match create_from_sequence payload_items w with
    | (Returned result, w') => (Ok result, w')
    | (Raised (ValueError msg), w') => (HTTPException 422 msg, w')
    | (Raised e, w') => (Unhandled e, w')
    end.

(** A subsequence document carries the hash of its own items, and its
    items are in ascending order. *)
Definition doc_consistent (d : SubsequenceDoc) : Prop :=
  sub_items_hash d = _hash_items (sub_items d) /\
  sorted (sub_items d) = sub_items d.

Definition store_consistent (w : World) : Prop :=
  Forall (fun s => doc_consistent (doc s)) (subsequences w).

(** What a stored subsequence says, whoever wrote it and when: its
    items and its hash. *)
Definition stored_content (s : Stored SubsequenceDoc) : list Z * string :=
  (sub_items (doc s), sub_items_hash (doc s)).

(** The items and the hash of a document to write. *)
Definition doc_content (d : SubsequenceDoc) : list Z * string :=
  (sub_items d, sub_items_hash d).


(** * Properties *)

(** ** Worked examples *)

Example canonical_sequence_ex1 :
  canonical_sequence [1; 2; 2; 3; 1] = [1; 2; 3].
Proof. vm_compute. reflexivity. Qed.

Example canonical_sequence_ex2 :
  canonical_sequence [10; 5; 15] = [5; 10; 15].
Proof. vm_compute. reflexivity. Qed.

Example sha256_abc :
  SHA256.hexdigest "abc" =
  "ba7816bf8f01cfea414140de5dae2223b00361a396177a9cb410ff61f20015ad"%string.
Proof. vm_compute. reflexivity. Qed.

Example sha256_empty :
  SHA256.hexdigest EmptyString =
  "e3b0c44298fc1c149afbf4c8996fb92427ae41e4649b934ca495991b7852b855"%string.
Proof. vm_compute. reflexivity. Qed.

Example sha256_two_blocks :
  SHA256.hexdigest "abcdbcdecdefdefgefghfghighijhijkijkljklmklmnlmnomnopnopq" =
  "248d6a61d20638b8e5c026930c3e6039a33ce45964ff2167f6ecedd419db06c1"%string.
Proof. vm_compute. reflexivity. Qed.

Example generate_subsequences_ex1 :
  generate_subsequences [1; 2; 3]
  = [[1]; [2]; [3]; [1; 2]; [1; 3]; [2; 3]; [1; 2; 3]].
Proof. reflexivity. Qed.

Example generate_subsequences_ex2 : generate_subsequences [42] = [[42]].
Proof. reflexivity. Qed.

Example hash_key_ex : hash_key [3; 1; 2] = "1,2,3"%string.
Proof. vm_compute. reflexivity. Qed.

Example format_thousands_ex : format_thousands 262143 = "262,143"%string.
Proof. vm_compute. reflexivity. Qed.

(** ** The canonicalizer *)

Lemma StronglySorted_le_lt (l : list Z) :
  StronglySorted Z.le l -> NoDup l -> StronglySorted Z.lt l.
Proof.
  induction 1 as [|x l Hs IH Hall]; intros Hnd; constructor.
  - apply IH. by apply NoDup_cons in Hnd as [_ ?].
  - apply NoDup_cons in Hnd as [Hx _].
    rewrite Forall_forall in Hall |- *. intros y Hy.
    specialize (Hall y Hy).
    assert (x <> y) by (intros ->; apply Hx; by apply list_elem_of_In).
    lia.
Qed.

Lemma sorted_StronglySorted (l : list Z) : StronglySorted Z.le (sorted l).
Proof. apply (StronglySorted_merge_sort Z.le). Qed.

Lemma sorted_Permutation (l : list Z) : Permutation (sorted l) l.
Proof. apply (merge_sort_Permutation Z.le). Qed.

Lemma canonical_sequence_Permutation (l : list Z) :
  Permutation (canonical_sequence l) (elements (list_to_set l : gset Z)).
Proof. apply (merge_sort_Permutation Z.le). Qed.

Lemma canonical_sequence_NoDup (l : list Z) : NoDup (canonical_sequence l).
Proof.
  rewrite canonical_sequence_Permutation. apply NoDup_elements.
Qed.

Lemma canonical_sequence_In (l : list Z) (x : Z) :
  In x (canonical_sequence l) <-> In x l.
Proof.
  rewrite <- !list_elem_of_In, canonical_sequence_Permutation.
  rewrite elem_of_elements. apply elem_of_list_to_set.
Qed.

Lemma canonical_sequence_ascending (l : list Z) :
  StronglySorted Z.lt (canonical_sequence l).
Proof.
  apply StronglySorted_le_lt.
  - apply (StronglySorted_merge_sort Z.le).
  - apply canonical_sequence_NoDup.
Qed.

Lemma canonical_sequence_same_values (l l' : list Z) :
  (forall x, In x l <-> In x l') ->
  canonical_sequence l = canonical_sequence l'.
Proof.
  intros H. unfold canonical_sequence.
  replace (list_to_set l' : gset Z) with (list_to_set l : gset Z); [done|].
  apply set_eq. intros x. rewrite !elem_of_list_to_set, !list_elem_of_In.
  apply H.
Qed.

(** C7.  For every integer list [L] (empty or not), [canonical_sequence L]
    is strictly ascending, has no duplicate, holds exactly the values of
    [L], and is the same list for every [L'] that is a permutation of [L]
    or, more generally, that has the same distinct values as [L]
    (duplicates added or removed, order changed). *)
Theorem canonical_sequence_spec (L : list Z) :
  StronglySorted Z.lt (canonical_sequence L) /\
  NoDup (canonical_sequence L) /\
  (forall x, In x (canonical_sequence L) <-> In x L) /\
  (forall L', Permutation L L' ->
              canonical_sequence L' = canonical_sequence L) /\
  (forall L', (forall x, In x L' <-> In x L) ->
              canonical_sequence L' = canonical_sequence L).
Proof.
  split; [apply canonical_sequence_ascending|].
  split; [apply canonical_sequence_NoDup|].
  split; [apply canonical_sequence_In|].
  split.
  - intros L' HP. apply canonical_sequence_same_values. intros x.
    rewrite <- !list_elem_of_In. by rewrite HP.
  - intros L' H. by apply canonical_sequence_same_values.
Qed.

(** ** The enumerator *)

Lemma list_sum_map_add {A} (f g : A -> nat) (l : list A) :
  list_sum (map (fun k => (f k + g k)%nat) l)
  = (list_sum (map f l) + list_sum (map g l))%nat.
Proof. induction l as [|a l IH]; simpl; [reflexivity | rewrite IH; lia]. Qed.

Lemma list_sum_cons (a : nat) (l : list nat) :
  list_sum (a :: l) = (a + list_sum l)%nat.
Proof. reflexivity. Qed.

Lemma combinations_0 (l : list Z) : combinations l 0 = [[]].
Proof. destruct l; reflexivity. Qed.

Lemma combinations_nil_count (a n : nat) :
  list_sum (map (fun k => length (combinations [] (S k))) (seq a n)) = O.
Proof. revert a; induction n as [|n IH]; intros a; simpl; auto. Qed.

(** The selections of all sizes up to [n] are as many as the subsets. *)
Lemma combinations_count (l : list Z) :
  forall n : nat, (length l <= n)%nat ->
  list_sum (map (fun k => length (combinations l k)) (seq 0 (S n)))
  = (2 ^ length l)%nat.
Proof.
  induction l as [|x l IH]; intros n Hn.
  - cbn [seq map]. rewrite <- seq_shift, map_map, list_sum_cons.
    rewrite combinations_nil_count. reflexivity.
  - destruct n as [|n]; [simpl in Hn; lia|].
    assert (Hl : (length l <= n)%nat) by (simpl in Hn; lia).
    assert (Hl' : (length l <= S n)%nat) by lia.
    pose proof (IH n Hl) as IH1. pose proof (IH (S n) Hl') as IH2.
    change (seq 0 (S (S n))) with (O :: seq 1 (S n)).
    change (seq 0 (S (S n))) with (O :: seq 1 (S n)) in IH2.
    cbn [map] in IH2 |- *.
    rewrite <- seq_shift, map_map, list_sum_cons in IH2 |- *.
    cbn [combinations] in IH2 |- *.
    erewrite map_ext; [|intros k; rewrite length_app, length_map; reflexivity].
    rewrite list_sum_map_add, IH1.
    rewrite combinations_0 in IH2.
    cbn [length] in IH2 |- *. rewrite Nat.pow_succ_r'. lia.
Qed.

Lemma length_generate_subsequences (l : list Z) :
  length (generate_subsequences l) = (2 ^ length l - 1)%nat.
Proof.
  unfold generate_subsequences. rewrite length_concat, map_map.
  pose proof (combinations_count l (length l) (Nat.le_refl _)) as H.
  change (seq 0 (S (length l))) with (O :: seq 1 (length l)) in H.
  cbn [map] in H. rewrite list_sum_cons in H.
  assert (length (combinations l 0) = 1%nat) by (destruct l; reflexivity).
  lia.
Qed.

Lemma combinations_length (l : list Z) :
  forall (k : nat) (c : list Z), In c (combinations l k) -> length c = k.
Proof.
  induction l as [|x l IH]; intros [|k] c Hc; simpl in Hc.
  - destruct Hc as [<-|[]]. reflexivity.
  - destruct Hc.
  - destruct Hc as [<-|[]]. reflexivity.
  - apply in_app_or in Hc as [Hc|Hc].
    + apply in_map_iff in Hc as (c' & <- & Hc'). simpl. f_equal. eauto.
    + eauto.
Qed.

Lemma combinations_incl (l : list Z) :
  forall (k : nat) (c : list Z), In c (combinations l k) ->
  forall y, In y c -> In y l.
Proof.
  induction l as [|x l IH]; intros [|k] c Hc y Hy; simpl in Hc.
  - destruct Hc as [<-|[]]. destruct Hy.
  - destruct Hc.
  - destruct Hc as [<-|[]]. destruct Hy.
  - apply in_app_or in Hc as [Hc|Hc].
    + apply in_map_iff in Hc as (c' & <- & Hc').
      destruct Hy as [->|Hy]; [left; reflexivity | right; eauto].
    + right. eauto.
Qed.

Lemma combinations_ascending (l : list Z) :
  StronglySorted Z.lt l ->
  forall (k : nat) (c : list Z), In c (combinations l k) ->
  StronglySorted Z.lt c.
Proof.
  induction 1 as [|x l Hs IH Hall]; intros [|k] c Hc; simpl in Hc.
  - destruct Hc as [<-|[]]. constructor.
  - destruct Hc.
  - destruct Hc as [<-|[]]. constructor.
  - apply in_app_or in Hc as [Hc|Hc].
    + apply in_map_iff in Hc as (c' & <- & Hc'). constructor; [eauto|].
      rewrite Forall_forall in Hall |- *. intros y Hy. apply Hall.
      apply list_elem_of_In. apply list_elem_of_In in Hy.
      eapply combinations_incl; eauto.
    + eauto.
Qed.

Lemma list_lt_cons (x : Z) (a b : list Z) :
  list_lt a b -> list_lt (x :: a) (x :: b).
Proof.
  intros [Hle Hne]. split.
  - simpl. rewrite Z.ltb_irrefl, Z.eqb_refl. exact Hle.
  - intros [= E]. auto.
Qed.

Lemma list_lt_head (x y : Z) (a b : list Z) :
  x < y -> list_lt (x :: a) (y :: b).
Proof.
  intros Hxy. split.
  - simpl. apply Z.ltb_lt in Hxy. rewrite Hxy. reflexivity.
  - intros [= E _]. lia.
Qed.

Lemma combinations_lex_sorted (l : list Z) :
  StronglySorted Z.lt l ->
  forall k : nat, StronglySorted list_lt (combinations l k).
Proof.
  induction 1 as [|x l Hs IH Hall]; intros [|k]; simpl.
  - repeat constructor.
  - constructor.
  - repeat constructor.
  - apply StronglySorted_app_2.
    + intros c1 c2 H1 H2.
      apply list_elem_of_In, in_map_iff in H1 as (c' & <- & Hc').
      apply list_elem_of_In in H2.
      destruct c2 as [|y c2].
      { apply combinations_length in H2. discriminate. }
      apply list_lt_head. rewrite Forall_forall in Hall. apply Hall.
      apply list_elem_of_In.
      eapply combinations_incl; [exact H2 | left; reflexivity].
    + specialize (IH k). clear -IH.
      induction IH as [|c cs Hcs IHcs Hc]; simpl; constructor; auto.
      rewrite Forall_forall in Hc |- *. intros d Hd.
      apply list_elem_of_In, in_map_iff in Hd as (d' & <- & Hd').
      apply list_lt_cons, Hc. by apply list_elem_of_In.
    + apply IH.
Qed.

Lemma key_lt_same_length (a b : list Z) :
  length a = length b -> list_lt a b -> key_lt a b.
Proof.
  intros E [Hle Hne]. split; [|exact Hne].
  unfold key_le, key_leb. rewrite E, Nat.eqb_refl, Hle.
  apply orb_true_r.
Qed.

Lemma key_lt_shorter (a b : list Z) :
  (length a < length b)%nat -> key_lt a b.
Proof.
  intros H. split.
  - unfold key_le, key_leb. apply Nat.ltb_lt in H. rewrite H. reflexivity.
  - intros ->. lia.
Qed.

Lemma combinations_key_sorted (l : list Z) (k : nat) :
  StronglySorted Z.lt l -> StronglySorted key_lt (combinations l k).
Proof.
  intros Hl. pose proof (combinations_lex_sorted l Hl k) as Hs.
  pose proof (combinations_length l k) as Hlen.
  induction Hs as [|c cs Hcs IH Hc]; constructor.
  - apply IH. intros d Hd. apply Hlen. right. exact Hd.
  - rewrite Forall_forall in Hc |- *. intros d Hd.
    apply key_lt_same_length; [|auto].
    rewrite (Hlen c), (Hlen d); auto.
    + right. by apply list_elem_of_In.
    + left. reflexivity.
Qed.

Lemma concat_combinations_sorted (l : list Z) (ks : list nat) :
  StronglySorted Z.lt l -> StronglySorted lt ks ->
  StronglySorted key_lt (concat (map (combinations l) ks)).
Proof.
  intros Hl. induction 1 as [|k ks Hks IH Hk]; simpl; [constructor|].
  apply StronglySorted_app_2; [|by apply combinations_key_sorted|exact IH].
  intros c1 c2 H1 H2. apply list_elem_of_In in H1, H2.
  apply in_concat in H2 as (cs & Hcs & H2).
  apply in_map_iff in Hcs as (k' & <- & Hk').
  apply key_lt_shorter.
  rewrite (combinations_length _ _ _ H1), (combinations_length _ _ _ H2).
  rewrite Forall_forall in Hk. apply Hk. by apply list_elem_of_In.
Qed.

Lemma seq_StronglySorted (a n : nat) : StronglySorted lt (seq a n).
Proof.
  revert a. induction n as [|n IH]; intros a; simpl; constructor; [apply IH|].
  rewrite Forall_forall. intros k Hk.
  apply list_elem_of_In, in_seq in Hk. lia.
Qed.

Lemma generate_subsequences_key_sorted (l : list Z) :
  StronglySorted Z.lt l -> StronglySorted key_lt (generate_subsequences l).
Proof.
  intros Hl. apply concat_combinations_sorted; [exact Hl|].
  apply seq_StronglySorted.
Qed.

Lemma StronglySorted_strict_NoDup {A} (R : relation A) (l : list A) :
  (forall a b, R a b -> a <> b) -> StronglySorted R l -> NoDup l.
Proof.
  intros Hirr. induction 1 as [|x l Hs IH Hall]; constructor; [|exact IH].
  intros Hx. rewrite Forall_forall in Hall. by apply (Hirr x x); auto.
Qed.

Lemma StronglySorted_weaken {A} (R S : relation A) (l : list A) :
  (forall a b, R a b -> S a b) -> StronglySorted R l -> StronglySorted S l.
Proof.
  intros HRS. induction 1 as [|x l Hs IH Hall]; constructor; [exact IH|].
  eapply Forall_impl; eauto.
Qed.

Lemma generate_subsequences_In (l s : list Z) :
  In s (generate_subsequences l) ->
  exists k : nat, (1 <= k <= length l)%nat /\ In s (combinations l k).
Proof.
  unfold generate_subsequences. intros H.
  apply in_concat in H as (cs & Hcs & H).
  apply in_map_iff in Hcs as (k & <- & Hk). apply in_seq in Hk.
  exists k. split; [lia | exact H].
Qed.

Lemma key_lt_size_then_lex (a b : list Z) :
  key_lt a b -> size_then_lex a b.
Proof.
  intros [Hle Hne]. unfold key_le, key_leb in Hle.
  apply orb_true_iff in Hle as [H|H].
  - left. by apply Nat.ltb_lt.
  - apply andb_true_iff in H as [H1 H2]. apply Nat.eqb_eq in H1.
    right. split; [exact H1 | split; assumption].
Qed.

(** C3.  For every strictly ascending list [items] (a canonical sequence)
    of length n, whatever n, the enumerator yields exactly 2^n - 1 lists;
    each is non-empty, strictly ascending and made of values of [items];
    no two are identical; they come shorter first and, at equal length, in
    lexicographic order.  On the empty list it yields nothing. *)
Theorem generate_subsequences_spec (items : list Z) :
  StronglySorted Z.lt items ->
  length (generate_subsequences items) = (2 ^ length items - 1)%nat /\
  (forall s, In s (generate_subsequences items) ->
             s <> [] /\ StronglySorted Z.lt s /\
             (forall x, In x s -> In x items)) /\
  NoDup (generate_subsequences items) /\
  StronglySorted size_then_lex (generate_subsequences items) /\
  generate_subsequences [] = [].
Proof.
  intros Hs.
  pose proof (generate_subsequences_key_sorted items Hs) as Hk.
  split; [apply length_generate_subsequences|].
  split; [|split; [|split; [|reflexivity]]].
  - intros s H. apply generate_subsequences_In in H as (k & Hk1 & Hk2).
    split; [|split].
    + intros ->. apply combinations_length in Hk2. simpl in Hk2. lia.
    + eapply combinations_ascending; eauto.
    + eapply combinations_incl; eauto.
  - eapply StronglySorted_strict_NoDup; [|exact Hk]. by intros a b [_ ?].
  - eapply StronglySorted_weaken; [|exact Hk]. apply key_lt_size_then_lex.
Qed.

Lemma generate_subsequences_spec_witness :
  StronglySorted Z.lt [1; 2; 3] /\
  length (generate_subsequences [1; 2; 3]) = 7%nat.
Proof.
  assert (H : StronglySorted Z.lt [1; 2; 3]) by (repeat constructor; lia).
  split; [exact H|].
  exact (proj1 (generate_subsequences_spec [1; 2; 3] H)).
Defined.

(** ** The content hasher *)

Lemma no_comma_uint (d : Decimal.uint) :
  no_comma (NilEmpty.string_of_uint d) = true.
Proof. induction d; simpl; auto. Qed.

Lemma str_no_comma (x : Z) : no_comma (str x) = true.
Proof.
  unfold str, NilZero.string_of_int, NilZero.string_of_uint.
  destruct (Z.to_int x) as [d|d]; destruct d; simpl;
    auto using no_comma_uint.
Qed.

Lemma str_nonempty (x : Z) : str x <> EmptyString.
Proof.
  unfold str, NilZero.string_of_int, NilZero.string_of_uint.
  destruct (Z.to_int x) as [d|d]; destruct d; discriminate.
Qed.

Lemma to_int_not_nil (x : Z) :
  Z.to_int x <> Decimal.Pos Decimal.Nil /\
  Z.to_int x <> Decimal.Neg Decimal.Nil.
Proof.
  destruct x as [|p|p]; simpl; split; try discriminate;
    intros [= E]; by apply (DecimalPos.Unsigned.to_uint_nonnil p).
Qed.

Lemma str_inj (x y : Z) : str x = str y -> x = y.
Proof.
  intros E. apply DecimalZ.to_int_inj.
  destruct (to_int_not_nil x) as [Hx1 Hx2].
  destruct (to_int_not_nil y) as [Hy1 Hy2].
  pose proof (NilZero.isi _ Hx1 Hx2) as Ex.
  pose proof (NilZero.isi _ Hy1 Hy2) as Ey.
  unfold str in E. rewrite E in Ex. congruence.
Qed.

(** Two texts that agree up to and after their first comma. *)
Lemma first_comma_split (x y a b : string) :
  no_comma x = true -> no_comma y = true ->
  (x ++ String "," a)%string = (y ++ String "," b)%string ->
  x = y /\ a = b.
Proof.
  revert y. induction x as [|c x IH]; intros [|d y] Hx Hy E; simpl in *.
  - by injection E as ->.
  - injection E as <- _. discriminate.
  - injection E as -> _. discriminate.
  - injection E as -> E.
    apply andb_true_iff in Hx as [_ Hx], Hy as [_ Hy].
    destruct (IH y Hx Hy E) as [-> ->]. done.
Qed.

Lemma no_comma_not_joined (x y b : string) :
  no_comma x = true -> x <> (y ++ String "," b)%string.
Proof.
  revert y. induction x as [|c x IH]; intros [|d y] Hx E; simpl in *;
    try discriminate.
  - injection E as -> _. discriminate.
  - injection E as _ E. apply andb_true_iff in Hx as [_ Hx].
    by apply (IH y Hx).
Qed.

Lemma concat_cons2 (x y : string) (l : list string) :
  String.concat "," (x :: y :: l)
  = (x ++ String "," (String.concat "," (y :: l)))%string.
Proof. reflexivity. Qed.

Lemma concat_nonempty (x : string) (l : list string) :
  x <> EmptyString -> String.concat "," (x :: l) <> EmptyString.
Proof.
  intros Hx. destruct l as [|y l]; [exact Hx|].
  rewrite concat_cons2. destruct x; [done | discriminate].
Qed.

(** Joining comma-free, non-empty fields with commas loses nothing. *)
Lemma concat_comma_inj (l1 l2 : list string) :
  Forall field l1 -> Forall field l2 ->
  String.concat "," l1 = String.concat "," l2 -> l1 = l2.
Proof.
  intros H1. revert l2.
  induction H1 as [|x l1 [Hx Hxe] H1 IH]; intros l2 H2 E.
  - destruct H2 as [|y l2 [Hy Hye] H2]; [done|].
    symmetry in E. by apply concat_nonempty in E.
  - destruct H2 as [|y l2 [Hy Hye] H2].
    { by apply concat_nonempty in E. }
    destruct l1 as [|x' l1], l2 as [|y' l2].
    + simpl in E. by subst.
    + rewrite concat_cons2 in E. simpl in E.
      by apply no_comma_not_joined in E.
    + rewrite concat_cons2 in E. simpl in E. symmetry in E.
      by apply no_comma_not_joined in E.
    + rewrite !concat_cons2 in E.
      apply first_comma_split in E as [-> E]; [|done..].
      f_equal. by apply IH.
Qed.

Lemma str_fields (l : list Z) : Forall field (map str l).
Proof.
  apply Forall_forall. intros s Hs.
  apply list_elem_of_In, in_map_iff in Hs as (x & <- & _).
  split; [apply str_no_comma | apply str_nonempty].
Qed.

Lemma map_str_inj (l1 l2 : list Z) : map str l1 = map str l2 -> l1 = l2.
Proof.
  revert l2. induction l1 as [|x l1 IH]; intros [|y l2] E;
    simpl in E; try discriminate; [done|].
  injection E as E1 E2. f_equal; [by apply str_inj | by apply IH].
Qed.

Lemma sorted_eq_iff_Permutation (X Y : list Z) :
  sorted X = sorted Y <-> Permutation X Y.
Proof.
  split.
  - intros E. rewrite <- (sorted_Permutation X), <- (sorted_Permutation Y).
    by rewrite E.
  - intros HP. apply (StronglySorted_unique Z.le);
      try apply sorted_StronglySorted.
    by rewrite !sorted_Permutation.
Qed.

Lemma hash_key_eq_iff (X Y : list Z) :
  hash_key X = hash_key Y <-> Permutation X Y.
Proof.
  rewrite <- sorted_eq_iff_Permutation. unfold hash_key. split.
  - intros E. apply map_str_inj, concat_comma_inj; auto using str_fields.
  - by intros ->.
Qed.

Lemma NoDup_same_values_Permutation (X Y : list Z) :
  NoDup X -> NoDup Y -> (forall x, In x X <-> In x Y) -> Permutation X Y.
Proof.
  intros HX HY H. apply NoDup_Permutation; [done..|].
  intros x. rewrite !list_elem_of_In. apply H.
Qed.

(** C1, as stated, fails: [[1; 1]] and [[1]] have the same sorted,
    deduplicated values, and different digests. *)
Lemma hash_items_duplicates_counterexample :
  ~ (_hash_items [1; 1] = _hash_items [1]
     <-> canonical_sequence [1; 1] = canonical_sequence [1]).
Proof.
  intros [_ H].
  assert (E : canonical_sequence [1; 1] = canonical_sequence [1])
    by (vm_compute; reflexivity).
  specialize (H E). vm_compute in H. discriminate H.
Qed.

(** C1, amended.  The text that the hasher digests (the sorted values in
    decimal, joined by commas) is the same for [X] and [Y] if and only if
    one is a permutation of the other, that is, they hold the same values
    with the same multiplicities; the digest is the SHA-256 of that text,
    so permuted lists have equal digests, whatever the order either was
    supplied in, and so have duplicate-free lists with equal value sets.
    Duplicates are not removed before hashing. *)
Theorem hash_items_spec (X Y : list Z) :
  (hash_key X = hash_key Y <-> Permutation X Y) /\
  _hash_items X = SHA256.hexdigest (hash_key X) /\
  (Permutation X Y -> _hash_items X = _hash_items Y) /\
  (NoDup X -> NoDup Y -> (forall x, In x X <-> In x Y) ->
   _hash_items X = _hash_items Y).
Proof.
  split; [apply hash_key_eq_iff|]. split; [reflexivity|].
  assert (HP : Permutation X Y -> _hash_items X = _hash_items Y).
  { intros HP. unfold _hash_items.
    by rewrite (proj2 (hash_key_eq_iff X Y) HP). }
  split; [exact HP|].
  intros HX HY H. by apply HP, NoDup_same_values_Permutation.
Qed.

(** ** The size check of [create_from_sequence] *)

(** C2.  When the canonical form of the input has length n > 18,
    [create_from_sequence] raises a [ValueError] whose message spells out
    n, the limit 18 and the count 262,143, and it leaves the world as it
    found it: no document written, no request sent to the store. *)
Theorem create_from_sequence_too_large (items : list Z) (w : World) :
  Z.of_nat (length (canonical_sequence items)) > 18 ->
  create_from_sequence items w =
  (Raised
     (ValueError
        ("La secuencia es demasiado grande: n="
         ++ str (Z.of_nat (length (canonical_sequence items)))
         ++ " (límite 18). El máximo permitido es 262,143 subsecuencias.")),
   w).
Proof.
  intros Hn. unfold create_from_sequence.
  destruct (Z.eqb_spec (Z.of_nat (length (canonical_sequence items))) 0)
    as [E|_]; [lia|].
  destruct (Z.gtb_spec (Z.of_nat (length (canonical_sequence items))) 18)
    as [_|H]; [|lia].
  unfold raise, too_large_message. do 3 f_equal.
Qed.

Lemma create_from_sequence_too_large_witness :
  let items := map Z.of_nat (seq 1 19) in
  Z.of_nat (length (canonical_sequence items)) > 18 /\
  create_from_sequence items empty_world =
  (Raised
     (ValueError
        ("La secuencia es demasiado grande: n="
         ++ str (Z.of_nat (length (canonical_sequence items)))
         ++ " (límite 18). El máximo permitido es 262,143 subsecuencias.")),
   empty_world).
Proof.
  intros items.
  assert (H : Z.of_nat (length (canonical_sequence items)) > 18)
    by (vm_compute; reflexivity).
  split; [exact H|].
  exact (create_from_sequence_too_large items empty_world H).
Defined.

Example create_from_sequence_19 :
  fst (create_from_sequence (map Z.of_nat (seq 1 19)) empty_world) =
  Raised (ValueError "La secuencia es demasiado grande: n=19 (límite 18). El máximo permitido es 262,143 subsecuencias.").
Proof. vm_compute. reflexivity. Qed.

Lemma Returned_inj {A} (a b : A) : Returned a = Returned b -> a = b.
Proof. by intros [= ->]. Qed.

(** ** Writes into the subsequences collection *)

Lemma has_hash_app (h : string) (l1 l2 : list (Stored SubsequenceDoc)) :
  has_hash h (l1 ++ l2) = has_hash h l1 || has_hash h l2.
Proof. unfold has_hash. apply existsb_app. Qed.

Lemma has_hash_In (h : string) (l : list (Stored SubsequenceDoc)) :
  has_hash h l = true <-> In h (hashes l).
Proof.
  unfold has_hash, hashes. rewrite existsb_exists, in_map_iff.
  split; intros (s & H1 & H2).
  - exists s. apply String.eqb_eq in H2. auto.
  - exists s. split; [exact H2 | by apply String.eqb_eq].
Qed.

(** The encoder looks at the integers only, in whatever order. *)
Lemma bson_ints_Forall (l : list Z) :
  bson_ints l = true <-> Forall (fun x => - 2 ^ 63 <= x < 2 ^ 63) l.
Proof.
  unfold bson_ints. rewrite forallb_forall, Forall_forall.
  split; intros H x Hx.
  - apply list_elem_of_In, H in Hx. unfold bson_int in Hx.
    apply andb_true_iff in Hx as [H1 H2]. lia.
  - apply list_elem_of_In, H in Hx. unfold bson_int.
    apply andb_true_iff. split; lia.
Qed.

Lemma bson_ints_incl (l l' : list Z) :
  (forall x, In x l' -> In x l) -> bson_ints l = true -> bson_ints l' = true.
Proof.
  unfold bson_ints. rewrite !forallb_forall. intros Hi H x Hx. auto.
Qed.

Lemma bson_ints_same (l l' : list Z) :
  (forall x, In x l' <-> In x l) -> bson_ints l' = bson_ints l.
Proof.
  intros Hi. destruct (bson_ints l) eqn:E.
  - eapply bson_ints_incl; [|exact E]. intros x. apply Hi.
  - destruct (bson_ints l') eqn:E'; [|reflexivity].
    rewrite <- E. symmetry. eapply bson_ints_incl; [|exact E'].
    intros x. apply Hi.
Qed.

Lemma bson_ints_sorted (l : list Z) : bson_ints (sorted l) = bson_ints l.
Proof.
  apply bson_ints_same. intros x. unfold sorted.
  rewrite <- !list_elem_of_In. by rewrite merge_sort_Permutation.
Qed.

Lemma bson_ints_canonical_sequence (l : list Z) :
  bson_ints (canonical_sequence l) = bson_ints l.
Proof. apply bson_ints_same. intros x. apply canonical_sequence_In. Qed.

Lemma forallb_Forall_true {A} (f : A -> bool) (l : list A) :
  forallb f l = true -> Forall (fun x => f x = true) l.
Proof.
  intros H. apply Forall_forall. intros x Hx.
  rewrite forallb_forall in H. by apply H, list_elem_of_In.
Qed.

Lemma sub_store_run (d : SubsequenceDoc) (w : World) :
  bson_ints (sub_items d) = true ->
  sub_store d w =
  if has_hash (sub_items_hash d) (subsequences w)
  then (Raised DuplicateKeyError, w)
  else (Returned (ObjectId_new (oid_counter w)),
        mkWorld (sequences w)
                (fst (put_if_absent (subsequences w, oid_counter w) d))
                (snd (put_if_absent (subsequences w, oid_counter w) d))
                (clock w) (clock_reads w) (calls w)).
Proof.
  intros Hd. unfold sub_store, put_if_absent. rewrite Hd. cbn [negb fst snd].
  destruct (has_hash _ _); reflexivity.
Qed.

(** One call of [upsert_subsequence] on integers that fit 8 bytes does
    not raise: it reads the clock, sends one [insert_one], and the
    collection gains the document unless its hash is there already. *)
Lemma upsert_subsequence_run (sequence_id : string) (items : list Z)
    (w : World) :
  bson_ints items = true ->
  let d := individual_doc sequence_id (clock w (clock_reads w)) items in
  let st := put_if_absent (subsequences w, oid_counter w) d in
  upsert_subsequence sequence_id items w =
  (Returned tt,
   mkWorld (sequences w) (fst st) (snd st) (clock w) (S (clock_reads w))
           (calls w ++ [SubInsertOne d])).
Proof.
  intros Hi d st. subst st. unfold upsert_subsequence.
  fold (individual_doc sequence_id).
  assert (Hd : bson_ints (sub_items d) = true)
    by (subst d; cbn [individual_doc sub_items]; by rewrite bson_ints_sorted).
  unfold bind, catch, datetime_now, sub_insert_one.
  cbn [individual_doc sub_items]. rewrite bson_ints_sorted, Hi.
  unfold bind, log_call.
  rewrite sub_store_run by exact Hd. unfold put_if_absent.
  cbn [with_calls with_clock_reads sequences subsequences oid_counter
       clock clock_reads calls fst snd].
  fold d. replace (sub_items_hash d) with (_hash_items items) by reflexivity.
  destruct (has_hash _ _); reflexivity.
Qed.

(** With integers beyond 8 bytes the call raises after reading the
    clock, before anything is sent. *)
Lemma upsert_subsequence_overflow (sequence_id : string) (items : list Z)
    (w : World) :
  bson_ints items = false ->
  upsert_subsequence sequence_id items w =
  (Raised OverflowError, with_clock_reads w (S (clock_reads w))).
Proof.
  intros Hi. unfold upsert_subsequence.
  unfold bind, catch, datetime_now, sub_insert_one.
  cbn [sub_items]. rewrite bson_ints_sorted, Hi. reflexivity.
Qed.

Lemma for_each_upsert_run (sequence_id : string) (l : list (list Z)) :
  Forall (fun items => bson_ints items = true) l ->
  forall w : World,
  let docs := individual_docs sequence_id (clock w) (clock_reads w) l in
  let st := put_all (subsequences w, oid_counter w) docs in
  for_each l (fun subseq => upsert_subsequence sequence_id subseq) w =
  (Returned tt,
   mkWorld (sequences w) (fst st) (snd st) (clock w)
           (clock_reads w + length l)
           (calls w ++ map SubInsertOne docs)).
Proof.
  induction l as [|items l IH]; intros Hl w; cbv zeta.
  - destruct w. cbn. rewrite Nat.add_0_r, app_nil_r. reflexivity.
  - apply Forall_cons in Hl as [Hi Hl]. cbn [for_each individual_docs].
    unfold bind at 1. rewrite upsert_subsequence_run by exact Hi.
    cbv zeta in IH. rewrite IH by exact Hl.
    cbn [sequences subsequences oid_counter clock clock_reads calls
         map put_all fold_left length].
    rewrite <- surjective_pairing, <- app_assoc, Nat.add_succ_r.
    reflexivity.
Qed.

(** What a run of idempotent writes adds: documents among those written,
    none with a hash that was there before, no two with the same hash. *)
Lemma put_all_grows (docs : list SubsequenceDoc) :
  forall st : list (Stored SubsequenceDoc) * N,
  exists new : list (Stored SubsequenceDoc),
    fst (put_all st docs) = fst st ++ new /\
    Forall (fun s => In (doc s) docs) new /\
    Forall (fun s => ~ In (sub_items_hash (doc s)) (hashes (fst st))) new /\
    NoDup (hashes new).
Proof.
  induction docs as [|d docs IH]; intros st.
  - exists []. cbn. rewrite app_nil_r. repeat split; constructor.
  - cbn [put_all fold_left]. fold (put_all (put_if_absent st d) docs).
    destruct (IH (put_if_absent st d)) as (new & E & H1 & H2 & H3).
    unfold put_if_absent in *.
    destruct (has_hash (sub_items_hash d) (fst st)) eqn:Hh.
    + exists new. split; [exact E|]. split; [|split; assumption].
      eapply Forall_impl; [exact H1|]. intros s Hs. by right.
    + cbn [fst snd] in *. exists (mkStored (ObjectId_new (snd st)) d :: new).
      rewrite E, <- app_assoc. split; [reflexivity|].
      assert (Hd : ~ In (sub_items_hash d) (hashes (fst st))).
      { intros Hin. apply has_hash_In in Hin. congruence. }
      split; [|split].
      * constructor; [by left|].
        eapply Forall_impl; [exact H1|]. intros s Hs. by right.
      * constructor; [exact Hd|].
        eapply Forall_impl; [exact H2|]. intros s Hs Hin. apply Hs.
        unfold hashes. rewrite map_app. apply in_or_app. by left.
      * cbn. apply NoDup_cons. split; [|exact H3].
        intros Hin. apply list_elem_of_In in Hin.
        unfold hashes in Hin. apply in_map_iff in Hin as (s & Es & Hs).
        rewrite Forall_forall in H2.
        apply list_elem_of_In, H2 in Hs. apply Hs. rewrite Es.
        unfold hashes. rewrite map_app. apply in_or_app. right. by left.
Qed.

Lemma put_all_keeps (docs : list SubsequenceDoc) (h : string) :
  forall st : list (Stored SubsequenceDoc) * N,
  has_hash h (fst st) = true -> has_hash h (fst (put_all st docs)) = true.
Proof.
  intros st H. destruct (put_all_grows docs st) as (new & -> & _).
  rewrite has_hash_app, H. reflexivity.
Qed.

(** After the run every written hash is in the collection. *)
Lemma put_all_has (docs : list SubsequenceDoc) :
  forall (st : list (Stored SubsequenceDoc) * N) (d : SubsequenceDoc),
  In d docs -> has_hash (sub_items_hash d) (fst (put_all st docs)) = true.
Proof.
  induction docs as [|d' docs IH]; intros st d Hd; [destruct Hd|].
  cbn [put_all fold_left]. fold (put_all (put_if_absent st d') docs).
  destruct Hd as [->|Hd]; [|by apply IH].
  apply put_all_keeps. unfold put_if_absent.
  destruct (has_hash (sub_items_hash d) (fst st)) eqn:Hh; [exact Hh|].
  cbn [fst]. rewrite has_hash_app. cbn. rewrite String.eqb_refl.
  apply orb_true_r.
Qed.

(** Writing documents whose hashes are all there changes nothing. *)
Lemma put_all_present (docs : list SubsequenceDoc)
    (st : list (Stored SubsequenceDoc) * N) :
  (forall d, In d docs -> has_hash (sub_items_hash d) (fst st) = true) ->
  put_all st docs = st.
Proof.
  induction docs as [|d docs IH]; intros H; [reflexivity|].
  cbn [put_all fold_left]. fold (put_all (put_if_absent st d) docs).
  assert (E : put_if_absent st d = st).
  { unfold put_if_absent. rewrite H; [reflexivity | by left]. }
  rewrite E. apply IH. intros d' Hd'. apply H. by right.
Qed.

(** The unique index holds after the run if it held before. *)
Lemma put_all_unique (docs : list SubsequenceDoc)
    (st : list (Stored SubsequenceDoc) * N) :
  NoDup (hashes (fst st)) -> NoDup (hashes (fst (put_all st docs))).
Proof.
  intros Hu. destruct (put_all_grows docs st) as (new & -> & _ & H2 & H3).
  unfold hashes. rewrite map_app. apply NoDup_app. split; [exact Hu|].
  split; [|exact H3].
  intros h Hh Hin. apply list_elem_of_In in Hh, Hin.
  apply in_map_iff in Hin as (s & <- & Hs).
  rewrite Forall_forall in H2. apply list_elem_of_In, H2 in Hs. by apply Hs.
Qed.

Lemma count_result_cons (r r' : op_result) (rs : list op_result) :
  count_result r (r' :: rs)
  = (if op_result_eqb r r' then 1 else 0) + count_result r rs.
Proof.
  unfold count_result. cbn [List.filter].
  destruct (op_result_eqb r r'); cbn [length]; lia.
Qed.

Lemma put_if_absent_length (st : list (Stored SubsequenceDoc) * N)
    (d : SubsequenceDoc) :
  Z.of_nat (length (fst (put_if_absent st d)))
  = Z.of_nat (length (fst st))
    + (if has_hash (sub_items_hash d) (fst st) then 0 else 1).
Proof.
  unfold put_if_absent. destruct (has_hash _ _); cbn [fst]; [lia|].
  rewrite length_app. cbn [length]. lia.
Qed.

Lemma apply_update_one_run (d : SubsequenceDoc) (w : World) :
  bson_ints (sub_items d) = true ->
  let st := put_if_absent (subsequences w, oid_counter w) d in
  apply_update_one (mkUpdateOne (sub_items_hash d) d true) w =
  (Returned (if has_hash (sub_items_hash d) (subsequences w)
             then OpMatched else OpUpserted),
   mkWorld (sequences w) (fst st) (snd st) (clock w) (clock_reads w)
           (calls w)).
Proof.
  intros Hd. cbv zeta. unfold apply_update_one, put_if_absent.
  cbn [upd_filter_items_hash upd_upsert upd_setOnInsert fst snd].
  destruct (has_hash (sub_items_hash d) (subsequences w)) eqn:Hh.
  - destruct w; reflexivity.
  - unfold catch, bind. rewrite sub_store_run by exact Hd. rewrite Hh.
    unfold put_if_absent. cbn [fst snd]. rewrite Hh. reflexivity.
Qed.

(** A batch of insert-if-absent operations, each filtering on the hash
    of its own document: no write error, as many upserts as documents
    gained, the rest matched. *)
Lemma apply_updates_run (docs : list SubsequenceDoc) :
  Forall (fun d => bson_ints (sub_items d) = true) docs ->
  forall w : World,
  let st := put_all (subsequences w, oid_counter w) docs in
  exists rs : list op_result,
    apply_updates
      (map (fun d => mkUpdateOne (sub_items_hash d) d true) docs) w =
    (Returned rs,
     mkWorld (sequences w) (fst st) (snd st) (clock w) (clock_reads w)
             (calls w)) /\
    count_result OpError rs = 0 /\
    count_result OpUpserted rs
    = Z.of_nat (length (fst st)) - Z.of_nat (length (subsequences w)).
Proof.
  induction docs as [|d docs IH]; intros Hdocs w; cbv zeta.
  - exists []. destruct w. cbn. split; [reflexivity|]. split; [reflexivity|].
    unfold count_result. cbn. lia.
  - apply Forall_cons in Hdocs as [Hd Hdocs].
    cbn [map apply_updates put_all fold_left].
    fold (put_all (put_if_absent (subsequences w, oid_counter w) d) docs).
    unfold bind at 1. rewrite apply_update_one_run by exact Hd. cbv zeta.
    set (w1 := mkWorld _ _ _ _ _ _).
    destruct (IH Hdocs w1) as (rs & E & H1 & H2). cbv zeta in E.
    unfold bind at 1. rewrite E. unfold ret.
    subst w1. cbn [sequences subsequences oid_counter clock clock_reads
                   calls] in *.
    rewrite <- surjective_pairing in *.
    eexists. split; [reflexivity|].
    rewrite !count_result_cons, H1, H2, put_if_absent_length. cbn [fst].
    destruct (has_hash _ _); cbn; split; lia.
Qed.

Lemma bulk_encodable (docs : list SubsequenceDoc) :
  forallb (fun op => bson_ints (sub_items (upd_setOnInsert op)))
          (map (fun d => mkUpdateOne (sub_items_hash d) d true) docs)
  = forallb (fun d => bson_ints (sub_items d)) docs.
Proof.
  induction docs as [|d docs IH]; [reflexivity|].
  cbn [map forallb upd_setOnInsert]. by rewrite IH.
Qed.

Lemma sub_bulk_write_run (docs : list SubsequenceDoc) (w : World) :
  Forall (fun d => bson_ints (sub_items d) = true) docs ->
  let ops := map (fun d => mkUpdateOne (sub_items_hash d) d true) docs in
  let st := put_all (subsequences w, oid_counter w) docs in
  exists matched : Z,
    sub_bulk_write ops false w =
    (Returned
       (mkBulkWriteResult
          (Z.of_nat (length (fst st)) - Z.of_nat (length (subsequences w)))
          0 matched),
     mkWorld (sequences w) (fst st) (snd st) (clock w) (clock_reads w)
             (calls w ++ [SubBulkWrite ops false])).
Proof.
  intros Hdocs. cbv zeta. unfold sub_bulk_write.
  rewrite bulk_encodable.
  replace (forallb _ docs) with true
    by (symmetry; apply forallb_forall; intros d Hd;
        rewrite Forall_forall in Hdocs; by apply Hdocs, list_elem_of_In).
  unfold bind at 1, log_call.
  set (w1 := with_calls w _).
  destruct (apply_updates_run docs Hdocs w1) as (rs & E & H1 & H2).
  cbv zeta in E. unfold bind. rewrite E, H1, H2. cbn [Z.ltb Z.compare].
  unfold ret. eexists. reflexivity.
Qed.

Lemma bulk_ops_docs (sequence_id : string) (now : datetime)
    (l : list (list Z)) :
  map (bulk_op sequence_id now) l
  = map (fun d => mkUpdateOne (sub_items_hash d) d true)
        (map (bulk_doc sequence_id now) l).
Proof. rewrite map_map. reflexivity. Qed.

Lemma bulk_docs_encodable (sequence_id : string) (now : datetime)
    (l : list (list Z)) :
  Forall (fun items => bson_ints items = true) l ->
  Forall (fun d => bson_ints (sub_items d) = true)
         (map (bulk_doc sequence_id now) l).
Proof.
  intros H. apply Forall_map. eapply Forall_impl; [exact H|].
  intros items Hi. cbn [bulk_doc sub_items]. by rewrite bson_ints_sorted.
Qed.

(** With an integer beyond 8 bytes in a non-empty batch, the call reads
    the clock and raises while the batch is encoded: nothing is sent. *)
Lemma insert_subsequences_bulk_overflow (sequence_id : string)
    (l : list (list Z)) (w : World) :
  forallb bson_ints l = false ->
  insert_subsequences_bulk sequence_id l w =
  (Raised OverflowError, with_clock_reads w (S (clock_reads w))).
Proof.
  intros Hl. destruct l as [|items l]; [discriminate|].
  unfold insert_subsequences_bulk, bind at 1, datetime_now.
  set (now := clock w (clock_reads w)).
  change (@map (list Z) UpdateOne _ (items :: l))
    with (map (bulk_op sequence_id now) (items :: l)).
  unfold bind, sub_bulk_write.
  rewrite bulk_ops_docs, bulk_encodable.
  replace (forallb _ (map _ (items :: l)))
    with (forallb bson_ints (items :: l)); [by rewrite Hl|].
  clear. induction (items :: l) as [|x m IH]; [reflexivity|].
  cbn [map forallb bulk_doc sub_items]. by rewrite bson_ints_sorted, IH.
Qed.

Lemma insert_subsequences_bulk_run (sequence_id : string)
    (l : list (list Z)) (w : World) :
  l <> [] ->
  Forall (fun items => bson_ints items = true) l ->
  let now := clock w (clock_reads w) in
  let ops := map (bulk_op sequence_id now) l in
  let st := put_all (subsequences w, oid_counter w)
                    (map (bulk_doc sequence_id now) l) in
  exists result : BulkWriteResult,
    sub_bulk_write ops false (with_clock_reads w (S (clock_reads w))) =
    (Returned result,
     mkWorld (sequences w) (fst st) (snd st) (clock w) (S (clock_reads w))
             (calls w ++ [SubBulkWrite ops false])) /\
    upserted_count result
    = Z.of_nat (length (fst st)) - Z.of_nat (length (subsequences w)) /\
    modified_count result = 0 /\
    insert_subsequences_bulk sequence_id l w =
    (Returned (upserted_count result + modified_count result),
     mkWorld (sequences w) (fst st) (snd st) (clock w) (S (clock_reads w))
             (calls w ++ [SubBulkWrite ops false])).
Proof.
  intros Hl Hr. cbv zeta.
  set (now := clock w (clock_reads w)).
  pose proof (sub_bulk_write_run (map (bulk_doc sequence_id now) l)
                (with_clock_reads w (S (clock_reads w)))
                (bulk_docs_encodable sequence_id now l Hr)) as H.
  cbv zeta in H. rewrite <- bulk_ops_docs in H.
  destruct H as (matched & H).
  cbn [with_clock_reads sequences subsequences oid_counter clock
       clock_reads calls] in H.
  eexists. split; [exact H|]. split; [reflexivity|]. split; [reflexivity|].
  destruct l as [|items l]; [done|].
  unfold insert_subsequences_bulk, bind at 1, datetime_now.
  fold now.
  change (@map (list Z) UpdateOne _ (items :: l))
    with (map (bulk_op sequence_id now) (items :: l)).
  unfold bind. rewrite H. reflexivity.
Qed.



Example insert_subsequences_bulk_overflow_ex :
  fst (insert_subsequences_bulk "seq123" [[1]; [2 ^ 63]] empty_world)
  = Raised OverflowError.
Proof. vm_compute. reflexivity. Qed.

Example insert_subsequences_bulk_ex :
  fst (insert_subsequences_bulk "seq123" [[1]; [2]; [2; 1]; [1; 2]]
         empty_world) = Returned 3.
Proof. vm_compute. reflexivity. Qed.

(** ** The create request *)

Lemma insert_sequence_run (canon : list Z) (w : World) :
  bson_ints canon = true ->
  let oid := ObjectId_new (oid_counter w) in
  let d := mkSequenceDoc canon (clock w (clock_reads w)) in
  insert_sequence canon w =
  (Returned (oid_hex oid),
   mkWorld (sequences w ++ [mkStored oid d]) (subsequences w)
           (oid_counter w + 1)%N (clock w) (S (clock_reads w))
           (calls w ++ [SeqInsertOne d])).
Proof.
  intros Hc. cbv zeta.
  unfold insert_sequence, bind at 1, datetime_now, bind at 1, seq_insert_one.
  cbn [seq_items]. rewrite Hc. destruct w. reflexivity.
Qed.

(** With an integer beyond 8 bytes the document cannot be encoded: the
    call reads the clock and raises, nothing is sent. *)
Lemma insert_sequence_overflow (canon : list Z) (w : World) :
  bson_ints canon = false ->
  insert_sequence canon w =
  (Raised OverflowError, with_clock_reads w (S (clock_reads w))).
Proof.
  intros Hc.
  unfold insert_sequence, bind at 1, datetime_now, bind at 1, seq_insert_one.
  cbn [seq_items]. rewrite Hc. reflexivity.
Qed.

Lemma pow2_small (n : nat) : (n <= 6)%nat -> (2 ^ n <= 64)%nat.
Proof.
  intros H. change 64%nat with (2 ^ 6)%nat.
  apply Nat.pow_le_mono_r; [discriminate | exact H].
Qed.

Lemma pow2_large (n : nat) : (7 <= n)%nat -> (128 <= 2 ^ n)%nat.
Proof.
  intros H. change 128%nat with (2 ^ 7)%nat.
  apply Nat.pow_le_mono_r; [discriminate | exact H].
Qed.

Lemma pow2_pos (n : nat) : (1 <= 2 ^ n)%nat.
Proof.
  change 1%nat with (2 ^ 0)%nat at 1.
  apply Nat.pow_le_mono_r; [discriminate | lia].
Qed.

(** The number of subsequences, as the integer the service reports. *)
Lemma total_count_pow (l : list Z) :
  Z.of_nat (length (generate_subsequences l))
  = 2 ^ Z.of_nat (length l) - 1.
Proof.
  rewrite length_generate_subsequences.
  pose proof (pow2_pos (length l)).
  rewrite Nat2Z.inj_sub, Nat2Z.inj_pow by lia. reflexivity.
Qed.

(** Below the threshold of 100 exactly when the sequence has at most 6
    items. *)
Lemma below_threshold_iff (l : list Z) :
  Z.of_nat (length (generate_subsequences l)) < 100
  <-> (length l <= 6)%nat.
Proof.
  rewrite length_generate_subsequences.
  pose proof (pow2_pos (length l)). split; intros Hlt.
  - destruct (le_lt_dec (length l) 6) as [|Hgt]; [assumption|].
    pose proof (pow2_large (length l) Hgt). lia.
  - pose proof (pow2_small (length l) Hlt). lia.
Qed.

Lemma generate_subsequences_nonempty (l : list Z) :
  l <> [] -> generate_subsequences l <> [].
Proof.
  intros Hl E. apply (f_equal (@length _)) in E.
  rewrite length_generate_subsequences in E. cbn [length] in E.
  destruct l as [|x l]; [done|]. cbn [length] in E.
  rewrite Nat.pow_succ_r' in E. pose proof (pow2_pos (length l)). lia.
Qed.

(** The subsequences hold integers of the sequence only. *)
Lemma generate_subsequences_encodable (l : list Z) :
  bson_ints l = true ->
  Forall (fun s => bson_ints s = true) (generate_subsequences l).
Proof.
  intros Hl. apply Forall_forall. intros s Hs.
  apply list_elem_of_In, generate_subsequences_In in Hs as (k & _ & Hk).
  eapply bson_ints_incl; [|exact Hl]. by eapply combinations_incl.
Qed.

(** A request under the threshold: one [insert_one] for the sequence,
    then one per subsequence. *)
Lemma create_from_sequence_small (items : list Z) (w : World) :
  bson_ints items = true ->
  let canon := canonical_sequence items in
  let subs := generate_subsequences canon in
  let oid := ObjectId_new (oid_counter w) in
  let seq_doc := mkSequenceDoc canon (clock w (clock_reads w)) in
  let reads := S (clock_reads w) in
  (1 <= length canon <= 6)%nat ->
  let docs := individual_docs (oid_hex oid) (clock w) reads subs in
  let st := put_all (subsequences w, (oid_counter w + 1)%N) docs in
  create_from_sequence items w =
  (Returned (mkCreateResult (oid_hex oid) canon
                            (2 ^ Z.of_nat (length canon) - 1)),
   mkWorld (sequences w ++ [mkStored oid seq_doc]) (fst st) (snd st)
           (clock w) (reads + length subs)
           (calls w ++ SeqInsertOne seq_doc :: map SubInsertOne docs)).
Proof.
  intros Hr canon subs oid seq_doc reads Hn. cbv zeta.
  assert (Hc : bson_ints canon = true)
    by (unfold canon; by rewrite bson_ints_canonical_sequence).
  unfold create_from_sequence. fold canon. fold subs.
  destruct (Z.eqb_spec (Z.of_nat (length canon)) 0) as [E|_]; [lia|].
  destruct (Z.gtb_spec (Z.of_nat (length canon)) 18) as [E|_]; [lia|].
  unfold bind at 1. rewrite insert_sequence_run by exact Hc. cbv zeta.
  fold canon oid seq_doc.
  assert (Hlt : Z.of_nat (length subs) < 100)
    by (apply below_threshold_iff; lia).
  destruct (Z.geb_spec (Z.of_nat (length subs)) 100) as [E|_]; [lia|].
  unfold bind at 1.
  rewrite for_each_upsert_run by (by apply generate_subsequences_encodable).
  cbv zeta.
  cbn [sequences subsequences oid_counter clock clock_reads calls].
  unfold ret, subs. rewrite total_count_pow, <- app_assoc. reflexivity.
Qed.

(** A request at or above the threshold: one [insert_one] for the
    sequence, then a single [bulk_write]. *)
Lemma create_from_sequence_large (items : list Z) (w : World) :
  bson_ints items = true ->
  let canon := canonical_sequence items in
  let subs := generate_subsequences canon in
  let oid := ObjectId_new (oid_counter w) in
  let seq_doc := mkSequenceDoc canon (clock w (clock_reads w)) in
  let reads := S (clock_reads w) in
  (7 <= length canon <= 18)%nat ->
  let now := clock w reads in
  let docs := map (bulk_doc (oid_hex oid) now) subs in
  let st := put_all (subsequences w, (oid_counter w + 1)%N) docs in
  create_from_sequence items w =
  (Returned (mkCreateResult (oid_hex oid) canon
                            (2 ^ Z.of_nat (length canon) - 1)),
   mkWorld (sequences w ++ [mkStored oid seq_doc]) (fst st) (snd st)
           (clock w) (S reads)
           (calls w ++ [SeqInsertOne seq_doc;
                        SubBulkWrite (map (bulk_op (oid_hex oid) now) subs)
                                     false])).
Proof.
  intros Hr canon subs oid seq_doc reads Hn. cbv zeta.
  assert (Hc : bson_ints canon = true)
    by (unfold canon; by rewrite bson_ints_canonical_sequence).
  unfold create_from_sequence. fold canon. fold subs.
  destruct (Z.eqb_spec (Z.of_nat (length canon)) 0) as [E|_]; [lia|].
  destruct (Z.gtb_spec (Z.of_nat (length canon)) 18) as [E|_]; [lia|].
  unfold bind at 1. rewrite insert_sequence_run by exact Hc. cbv zeta.
  fold canon oid seq_doc.
  assert (Hge : ~ Z.of_nat (length subs) < 100)
    by (intros H; apply below_threshold_iff in H; lia).
  destruct (Z.geb_spec (Z.of_nat (length subs)) 100) as [_|E]; [|lia].
  assert (Hne : subs <> []).
  { apply generate_subsequences_nonempty. intros E. rewrite E in Hn.
    cbn in Hn. lia. }
  set (w1 := mkWorld _ _ _ _ _ _).
  destruct (insert_subsequences_bulk_run (oid_hex oid) subs w1 Hne
              (generate_subsequences_encodable canon Hc))
    as (result & _ & _ & _ & E). cbv zeta in E.
  unfold bind at 1. unfold bind at 1. rewrite E. unfold ret, bind.
  subst w1. cbn [sequences subsequences oid_counter clock clock_reads calls].
  unfold subs at 1. rewrite total_count_pow, <- app_assoc. reflexivity.
Qed.

(** ** Identifiers *)

Lemma hex_digit_valid (v : N) :
  (v < 16)%N ->
  is_hex (SHA256.hex_digit (Z.of_N v)) = true /\
  lower (SHA256.hex_digit (Z.of_N v)) = SHA256.hex_digit (Z.of_N v).
Proof.
  intros Hv. rewrite <- (N2Nat.id v).
  assert (Hk : (N.to_nat v < 16)%nat) by lia.
  generalize dependent (N.to_nat v). intros k Hk.
  do 16 (destruct k as [|k]; [split; reflexivity|]). lia.
Qed.

Lemma hex_digits_length (n : nat) :
  forall x : N, length (hex_digits n x) = n.
Proof.
  induction n as [|n IH]; intros x; cbn [hex_digits]; [reflexivity|].
  rewrite length_app, IH. cbn. lia.
Qed.

Lemma hex_digits_valid (n : nat) :
  forall x : N,
  forallb is_hex (hex_digits n x) = true /\
  map lower (hex_digits n x) = hex_digits n x.
Proof.
  induction n as [|n IH]; intros x; cbn [hex_digits]; [split; reflexivity|].
  destruct (IH (x / 16)%N) as [H1 H2].
  destruct (hex_digit_valid (x mod 16)%N) as [H3 H4].
  { apply N.mod_lt. discriminate. }
  rewrite forallb_app, map_app, H1, H2. cbn [forallb map].
  rewrite H3, H4. split; reflexivity.
Qed.

Lemma is_hex_not_space (c : ascii) : is_hex c = true -> is_space c = false.
Proof.
  destruct c as [[] [] [] [] [] [] [] []]; vm_compute; congruence.
Qed.

(** On hexadecimal digits alone, an even number of them, [fromhex] reads
    every pair. *)
Lemma fromhex_digits (n : nat) :
  forall cs : list ascii,
  length cs = (2 * n)%nat -> forallb is_hex cs = true ->
  fromhex cs = Some (map lower cs).
Proof.
  induction n as [|n IH]; intros cs Hlen Hhex.
  - destruct cs; [reflexivity | discriminate].
  - destruct cs as [|c [|d cs]]; [discriminate | cbn in Hlen; lia |].
    cbn [forallb] in Hhex.
    apply andb_true_iff in Hhex as [Hc Hhex].
    apply andb_true_iff in Hhex as [Hd Hhex].
    cbn [fromhex map]. rewrite (is_hex_not_space c Hc), Hc, Hd.
    cbn [andb]. rewrite IH; [reflexivity | cbn [length] in Hlen; lia
                                          | exact Hhex].
Qed.

(** The string of a fresh identifier parses back to that identifier,
    in the driver and in the store alike. *)
Lemma ObjectId_of_str_new (c : N) :
  ObjectId_of_str (oid_hex (ObjectId_new c)) = Some (ObjectId_new c).
Proof.
  unfold ObjectId_of_str, ObjectId_new. cbn [oid_hex].
  rewrite list_ascii_of_string_of_list_ascii, hex_digits_length.
  destruct (hex_digits_valid 24 c) as [H1 H2].
  rewrite (fromhex_digits 12), H2;
    [reflexivity | apply hex_digits_length | exact H1].
Qed.

Lemma ObjectId_of_hex24_new (c : N) :
  ObjectId_of_hex24 (oid_hex (ObjectId_new c)) = Some (ObjectId_new c).
Proof.
  unfold ObjectId_of_hex24, ObjectId_new. cbn [oid_hex].
  rewrite list_ascii_of_string_of_list_ascii, hex_digits_length.
  destruct (hex_digits_valid 24 c) as [-> ->]. reflexivity.
Qed.

Lemma individual_docs_sequence_id (sid : string) (clk : nat -> datetime)
    (l : list (list Z)) :
  forall (r : nat) (d : SubsequenceDoc),
  In d (individual_docs sid clk r l) ->
  sub_sequence_id d = match ObjectId_of_str sid with
                      | Some o => IdObject o
                      | None => IdStr sid
                      end.
Proof.
  induction l as [|s l IH]; intros r d Hd; [destruct Hd|].
  destruct Hd as [<-|Hd]; [reflexivity | eauto].
Qed.

Lemma individual_docs_hashes (sid : string) (clk : nat -> datetime)
    (l : list (list Z)) :
  forall r : nat,
  map sub_items_hash (individual_docs sid clk r l) = map _hash_items l.
Proof.
  induction l as [|s l IH]; intros r; cbn; [reflexivity|].
  by rewrite IH.
Qed.

Lemma individual_docs_items (sid : string) (clk : nat -> datetime)
    (l : list (list Z)) :
  forall r : nat,
  map sub_items (individual_docs sid clk r l) = map sorted l.
Proof.
  induction l as [|s l IH]; intros r; cbn; [reflexivity|].
  by rewrite IH.
Qed.

Lemma bulk_docs_hashes (sid : string) (now : datetime) (l : list (list Z)) :
  map sub_items_hash (map (bulk_doc sid now) l) = map _hash_items l.
Proof. rewrite map_map. reflexivity. Qed.

(** Sorting an ascending list changes nothing. *)
Lemma sorted_ascending (s : list Z) : StronglySorted Z.lt s -> sorted s = s.
Proof.
  intros Hs. apply (StronglySorted_unique Z.le).
  - apply sorted_StronglySorted.
  - eapply StronglySorted_weaken; [|exact Hs]. intros a b. lia.
  - apply sorted_Permutation.
Qed.

Lemma map_sorted_generate_subsequences (l : list Z) :
  StronglySorted Z.lt l ->
  map sorted (generate_subsequences l) = generate_subsequences l.
Proof.
  intros Hl. rewrite <- (map_id (generate_subsequences l)) at 2.
  apply map_ext_in. intros s Hs. apply sorted_ascending.
  apply generate_subsequences_In in Hs as (k & _ & Hk).
  by eapply combinations_ascending.
Qed.

(** Two runs of writes with the same hashes: the second changes nothing. *)
Lemma put_all_again (docs1 docs2 : list SubsequenceDoc)
    (st : list (Stored SubsequenceDoc) * N) (c : N) :
  map sub_items_hash docs2 = map sub_items_hash docs1 ->
  put_all (fst (put_all st docs1), c) docs2 = (fst (put_all st docs1), c).
Proof.
  intros E. apply put_all_present. intros d Hd. cbn [fst].
  assert (Hh : In (sub_items_hash d) (map sub_items_hash docs1)).
  { rewrite <- E. by apply in_map. }
  apply in_map_iff in Hh as (d1 & <- & Hd1). by apply put_all_has.
Qed.

(** What an accepted request does, whichever way it writes. *)
Lemma create_from_sequence_outcome (items : list Z) (w : World) :
  let canon := canonical_sequence items in
  let subs := generate_subsequences canon in
  let oid := ObjectId_new (oid_counter w) in
  let seq_doc := mkSequenceDoc canon (clock w (clock_reads w)) in
  (1 <= length canon <= 18)%nat ->
  bson_ints items = true ->
  exists (docs : list SubsequenceDoc) (reads : nat)
         (trace : list StoreCall),
    let st := put_all (subsequences w, (oid_counter w + 1)%N) docs in
    create_from_sequence items w =
    (Returned (mkCreateResult (oid_hex oid) canon
                              (2 ^ Z.of_nat (length canon) - 1)),
     mkWorld (sequences w ++ [mkStored oid seq_doc]) (fst st) (snd st)
             (clock w) reads (calls w ++ SeqInsertOne seq_doc :: trace)) /\
    map sub_items_hash docs = map _hash_items subs /\
    map sub_items docs = subs /\
    (((length canon <= 6)%nat /\
      trace = map SubInsertOne docs /\
      Forall (fun d => sub_sequence_id d = IdObject oid) docs)
     \/
     ((7 <= length canon)%nat /\
      exists now : datetime,
        trace = [SubBulkWrite (map (bulk_op (oid_hex oid) now) subs) false]
        /\ docs = map (bulk_doc (oid_hex oid) now) subs)).
Proof.
  intros canon subs oid seq_doc Hn Hr.
  pose proof (canonical_sequence_ascending items) as Hasc. fold canon in Hasc.
  destruct (le_lt_dec (length canon) 6) as [Hs|Hl].
  - pose proof (create_from_sequence_small items w Hr) as H. cbv zeta in H.
    fold canon subs oid seq_doc in H.
    eexists _, _, _. cbv zeta. split; [apply H; lia|].
    split; [apply individual_docs_hashes|].
    split.
    { rewrite individual_docs_items.
      by apply map_sorted_generate_subsequences. }
    left. split; [exact Hs|]. split; [reflexivity|].
    apply Forall_forall. intros d Hd. apply list_elem_of_In in Hd.
    apply individual_docs_sequence_id in Hd.
    unfold oid in Hd. rewrite ObjectId_of_str_new in Hd. exact Hd.
  - pose proof (create_from_sequence_large items w Hr) as H. cbv zeta in H.
    fold canon subs oid seq_doc in H.
    eexists _, _, _. cbv zeta. split; [apply H; lia|].
    split; [apply bulk_docs_hashes|].
    split.
    { rewrite map_map. cbn [bulk_doc sub_items].
      by apply map_sorted_generate_subsequences. }
    right. split; [lia|]. eexists. split; reflexivity.
Qed.

(** A request whose canonical length is between 1 and 18 but which
    holds an integer beyond 8 bytes: the Sequence document cannot be
    encoded, the request raises after reading the clock and nothing is
    sent or stored. *)
Lemma create_from_sequence_overflow (items : list Z) (w : World) :
  (1 <= length (canonical_sequence items) <= 18)%nat ->
  bson_ints items = false ->
  create_from_sequence items w =
  (Raised OverflowError, with_clock_reads w (S (clock_reads w))).
Proof.
  intros Hn Hr. unfold create_from_sequence.
  destruct (Z.eqb_spec (Z.of_nat (length (canonical_sequence items))) 0)
    as [E|_]; [lia|].
  destruct (Z.gtb_spec (Z.of_nat (length (canonical_sequence items))) 18)
    as [E|_]; [lia|].
  unfold bind at 1. rewrite insert_sequence_overflow; [reflexivity|].
  by rewrite bson_ints_canonical_sequence.
Qed.

(** A request is accepted exactly when its canonical length is between
    1 and 18 and its integers fit 8 bytes. *)
Lemma create_from_sequence_accepted (items : list Z) (w w' : World)
    (r : CreateResult) :
  create_from_sequence items w = (Returned r, w') ->
  (1 <= length (canonical_sequence items) <= 18)%nat /\
  bson_ints items = true.
Proof.
  intros E.
  assert (Hn : (1 <= length (canonical_sequence items) <= 18)%nat).
  { revert E. unfold create_from_sequence.
    destruct (Z.eqb_spec (Z.of_nat (length (canonical_sequence items))) 0)
      as [E|Hz]; [discriminate|].
    destruct (Z.gtb_spec (Z.of_nat (length (canonical_sequence items))) 18)
      as [E|Hle]; [discriminate|].
    intros _. lia. }
  split; [exact Hn|].
  destruct (bson_ints items) eqn:Hr; [reflexivity|].
  rewrite (create_from_sequence_overflow items w Hn Hr) in E. discriminate.
Qed.

(** What is stored after a run of writes was there before or is one of
    the documents written. *)
Lemma put_all_In (docs : list SubsequenceDoc)
    (st : list (Stored SubsequenceDoc) * N) (s : Stored SubsequenceDoc) :
  In s (fst (put_all st docs)) -> In s (fst st) \/ In (doc s) docs.
Proof.
  destruct (put_all_grows docs st) as (new & -> & H & _).
  intros Hs. apply in_app_or in Hs as [Hs|Hs]; [by left | right].
  rewrite Forall_forall in H. by apply H, list_elem_of_In.
Qed.

(** C5.  The number of subsequences of a request is 2^n - 1, n being the
    canonical length, which is below 100 exactly when n <= 6.  A request
    with n between 1 and 18 whose integers fit 8 bytes is accepted.  For
    every accepted request: below 100 the store receives, after the
    [insert_one] of the sequence, one [insert_one] per subsequence, in the
    order of the enumeration, each carrying the subsequence and its hash
    (duplicates are swallowed: the request still returns); at or above
    100 it receives, after the [insert_one] of the sequence, one single
    unordered [bulk_write] holding one insert-if-absent operation per
    subsequence. *)
Theorem create_from_sequence_strategy (input : list Z) (w : World) :
  let canon := canonical_sequence input in
  let subs := generate_subsequences canon in
  Z.of_nat (length subs) = 2 ^ Z.of_nat (length canon) - 1 /\
  (Z.of_nat (length subs) < 100 <-> (length canon <= 6)%nat) /\
  ((1 <= length canon <= 18)%nat ->
   Forall (fun x => - 2 ^ 63 <= x < 2 ^ 63) input ->
   exists (r : CreateResult) (w' : World),
     create_from_sequence input w = (Returned r, w')) /\
  (forall (r : CreateResult) (w' : World),
     create_from_sequence input w = (Returned r, w') ->
     exists seq_doc : SequenceDoc,
       (Z.of_nat (length subs) < 100 ->
        exists docs : list SubsequenceDoc,
          calls w' =
          calls w ++ SeqInsertOne seq_doc :: map SubInsertOne docs /\
          map sub_items docs = subs /\
          map sub_items_hash docs = map _hash_items subs) /\
       (100 <= Z.of_nat (length subs) ->
        exists now : datetime,
          calls w' =
          calls w ++ [SeqInsertOne seq_doc;
                      SubBulkWrite (map (bulk_op (id r) now) subs) false])).
Proof.
  intros canon subs.
  split; [apply total_count_pow|].
  pose proof (below_threshold_iff canon) as Hth. fold subs in Hth.
  split; [exact Hth|]. split.
  - intros Hn Hr. apply bson_ints_Forall in Hr.
    destruct (create_from_sequence_outcome input w Hn Hr)
      as (docs & reads & trace & E & _). cbv zeta in E.
    eexists _, _. exact E.
  - intros r w' Er.
    destruct (create_from_sequence_accepted _ _ _ _ Er) as [Hn Hr].
    destruct (create_from_sequence_outcome input w Hn Hr)
      as (docs & reads & trace & E & Hh & Hi & Hcase).
    cbv zeta in E. fold canon subs in E, Hh, Hi, Hcase.
    rewrite Er in E. apply pair_equal_spec in E as [Eo Ew].
    apply Returned_inj in Eo. subst r w'.
    eexists. cbn [calls id].
    destruct Hcase as [(Hs & -> & _)|(Hl & now & -> & ->)]; split.
    + intros _. exists docs. auto.
    + intros Hge. apply Hth in Hs. lia.
    + intros Hlt. apply Hth in Hlt. lia.
    + intros _. exists now. reflexivity.
Qed.

Lemma create_from_sequence_strategy_witness :
  (1 <= length (canonical_sequence [3; 1; 2; 2]%Z) <= 18)%nat /\
  Forall (fun x => - 2 ^ 63 <= x < 2 ^ 63) [3; 1; 2; 2] /\
  exists (r : CreateResult) (w' : World),
    create_from_sequence [3; 1; 2; 2] empty_world = (Returned r, w').
Proof.
  assert (H : (1 <= length (canonical_sequence [3; 1; 2; 2]%Z) <= 18)%nat)
    by (vm_compute; lia).
  assert (Hr : Forall (fun x => - 2 ^ 63 <= x < 2 ^ 63) [3; 1; 2; 2])
    by (repeat constructor; lia).
  split; [exact H|]. split; [exact Hr|].
  exact (proj1 (proj2 (proj2
           (create_from_sequence_strategy [3; 1; 2; 2] empty_world))) H Hr).
Defined.

(** Resubmitting writes no subsequence: the second run of the same
    request finds every hash in the store. *)
Lemma create_from_sequence_again (input : list Z) (w : World) :
  let canon := canonical_sequence input in
  (1 <= length canon <= 18)%nat ->
  bson_ints input = true ->
  exists (r r2 : CreateResult) (w' w2 : World) (seq_doc : Stored SequenceDoc),
    create_from_sequence input w = (Returned r, w') /\
    create_from_sequence input w' = (Returned r2, w2) /\
    total_subsequences r = 2 ^ Z.of_nat (length canon) - 1 /\
    total_subsequences r2 = 2 ^ Z.of_nat (length canon) - 1 /\
    items r = canon /\ items r2 = canon /\
    subsequences w2 = subsequences w' /\
    sequences w2 = sequences w' ++ [seq_doc] /\
    seq_items (doc seq_doc) = canon /\
    (forall s, In s (generate_subsequences canon) ->
               has_hash (_hash_items s) (subsequences w') = true) /\
    (NoDup (hashes (subsequences w)) -> NoDup (hashes (subsequences w'))).
Proof.
  intros canon Hn Hr.
  destruct (create_from_sequence_outcome input w Hn Hr)
    as (docs & reads & trace & E & Hh & _ & _). cbv zeta in E.
  set (w' := mkWorld _ _ _ _ _ _) in E.
  destruct (create_from_sequence_outcome input w' Hn Hr)
    as (docs2 & reads2 & trace2 & E2 & Hh2 & _ & _). cbv zeta in E2.
  fold canon in E, E2, Hh, Hh2.
  eexists _, _, w', _, _. split; [exact E|]. split; [exact E2|].
  cbn [total_subsequences items subsequences sequences doc seq_items].
  do 4 (split; [reflexivity|]).
  split; [|split; [reflexivity|split; [reflexivity|split]]].
  - subst w'. cbn [subsequences oid_counter].
    rewrite put_all_again; [reflexivity|]. by rewrite Hh, Hh2.
  - intros s Hs. subst w'. cbn [subsequences].
    assert (Hin : In (_hash_items s) (map sub_items_hash docs)).
    { rewrite Hh. by apply in_map. }
    apply in_map_iff in Hin as (d & <- & Hd). by apply put_all_has.
  - intros Hu. subst w'. cbn [subsequences]. by apply put_all_unique.
Qed.

(** C10.  For every accepted request the [total_subsequences] returned
    is 2^n - 1, n being the canonical length: it is the length of the
    enumeration, whatever the store held before.  Submitting the same
    input again is accepted, stores no new subsequence and still reports
    2^n - 1.  Requests are accepted when n is between 1 and 18 and the
    integers fit 8 bytes. *)
Theorem create_from_sequence_total (input : list Z) (w : World) :
  let canon := canonical_sequence input in
  (forall (r : CreateResult) (w' : World),
     create_from_sequence input w = (Returned r, w') ->
     items r = canon /\
     total_subsequences r = 2 ^ Z.of_nat (length canon) - 1 /\
     total_subsequences r
     = Z.of_nat (length (generate_subsequences canon)) /\
     exists (r2 : CreateResult) (w2 : World),
       create_from_sequence input w' = (Returned r2, w2) /\
       subsequences w2 = subsequences w' /\
       total_subsequences r2 = 2 ^ Z.of_nat (length canon) - 1) /\
  ((1 <= length canon <= 18)%nat ->
   Forall (fun x => - 2 ^ 63 <= x < 2 ^ 63) input ->
   exists (r : CreateResult) (w' : World),
     create_from_sequence input w = (Returned r, w')).
Proof.
  intros canon. split.
  - intros r w' Er.
    destruct (create_from_sequence_accepted _ _ _ _ Er) as [Hn Hr].
    destruct (create_from_sequence_again input w Hn Hr)
      as (r1 & r2 & w1 & w2 & sd & E & E2 & H1 & H2 & H3 & _ & H5 & _).
    rewrite Er in E. apply pair_equal_spec in E as [Eo Ew].
    apply Returned_inj in Eo. subst r1 w1. fold canon in H1, H2, H3.
    rewrite total_count_pow.
    split; [exact H3|]. split; [exact H1|]. split; [exact H1|].
    exists r2, w2. auto.
  - intros Hn Hr. apply bson_ints_Forall in Hr.
    destruct (create_from_sequence_again input w Hn Hr)
      as (r & _ & w' & _ & _ & E & _).
    exists r, w'. exact E.
Qed.

Lemma create_from_sequence_total_witness :
  (1 <= length (canonical_sequence [1; 1; 1]%Z) <= 18)%nat /\
  Forall (fun x => - 2 ^ 63 <= x < 2 ^ 63) [1; 1; 1] /\
  exists (r : CreateResult) (w' : World),
    create_from_sequence [1; 1; 1] empty_world = (Returned r, w') /\
    total_subsequences r
    = 2 ^ Z.of_nat (length (canonical_sequence [1; 1; 1])) - 1.
Proof.
  assert (H : (1 <= length (canonical_sequence [1; 1; 1]%Z) <= 18)%nat)
    by (vm_compute; lia).
  assert (Hr : Forall (fun x => - 2 ^ 63 <= x < 2 ^ 63) [1; 1; 1])
    by (repeat constructor; lia).
  split; [exact H|]. split; [exact Hr|].
  destruct (proj2 (create_from_sequence_total [1; 1; 1] empty_world) H Hr)
    as (r & w' & E).
  exists r, w'. split; [exact E|].
  exact (proj1 (proj2 (proj1 (create_from_sequence_total [1; 1; 1]
                                empty_world) r w' E))).
Defined.

(** C4.  When a request has been accepted, submitting the same input
    again is accepted too; the second submission appends exactly one
    Sequence document, holding the same canonical items, and leaves the
    subsequences collection exactly as the first one left it: every hash
    it would write is already stored, through either way of writing.
    Both submissions keep the hashes of the stored subsequences pairwise
    distinct. *)
Theorem create_from_sequence_idempotent (input : list Z) (w w' : World)
    (r : CreateResult) :
  create_from_sequence input w = (Returned r, w') ->
  exists (r2 : CreateResult) (w2 : World) (seq_doc : Stored SequenceDoc),
    create_from_sequence input w' = (Returned r2, w2) /\
    sequences w2 = sequences w' ++ [seq_doc] /\
    seq_items (doc seq_doc) = canonical_sequence input /\
    subsequences w2 = subsequences w' /\
    (forall s, In s (generate_subsequences (canonical_sequence input)) ->
               has_hash (_hash_items s) (subsequences w') = true) /\
    (NoDup (hashes (subsequences w)) ->
     NoDup (hashes (subsequences w')) /\ NoDup (hashes (subsequences w2))).
Proof.
  intros E. destruct (create_from_sequence_accepted _ _ _ _ E) as [Hn Hr].
  destruct (create_from_sequence_again input w Hn Hr)
    as (r1 & r2 & w1 & w2 & sd & E1 & E2 & _ & _ & _ & _ & H5 & H6 & H7
        & H8 & H9).
  rewrite E in E1. injection E1 as <- <-.
  exists r2, w2, sd. rewrite H5. auto 10.
Qed.

Lemma create_from_sequence_idempotent_witness :
  exists (r r2 : CreateResult) (w' w2 : World),
    create_from_sequence [1; 2; 3] empty_world = (Returned r, w') /\
    create_from_sequence [1; 2; 3] w' = (Returned r2, w2) /\
    subsequences w2 = subsequences w'.
Proof.
  destruct (create_from_sequence [1; 2; 3] empty_world) as [o w'] eqn:E.
  destruct o as [r|e]; [|vm_compute in E; discriminate E].
  destruct (create_from_sequence_idempotent [1; 2; 3] empty_world w' r E)
    as (r2 & w2 & sd & E2 & _ & _ & H & _).
  exists r, r2, w', w2. split; [reflexivity|]. split; [exact E2 | exact H].
Defined.



Example sequence_id_individual :
  map (fun s => sub_sequence_id (doc s))
      (subsequences (snd (create_from_sequence [7] empty_world)))
  = [IdObject (mkObjectId "000000000000000000000000")].
Proof. vm_compute. reflexivity. Qed.

Example sequence_id_unparsable :
  map (fun s => sub_sequence_id (doc s))
      (subsequences (snd (upsert_subsequence "seq123" [7] empty_world)))
  = [IdStr "seq123"].
Proof. vm_compute. reflexivity. Qed.

(** [bytes.fromhex], which [ObjectId(str)] calls on a string of 24
    characters, skips the blanks in front of a pair of digits. *)
Example sequence_id_blanks :
  map (fun s => sub_sequence_id (doc s))
      (subsequences
         (snd (upsert_subsequence "00 11 22 33 44 55 66 77 " [7]
                 empty_world)))
  = [IdObject (mkObjectId "0011223344556677")].
Proof. vm_compute. reflexivity. Qed.

Example sequence_id_overflow :
  upsert_subsequence "seq123" [2 ^ 63] empty_world
  = (Raised OverflowError, with_clock_reads empty_world 1).
Proof. vm_compute. reflexivity. Qed.

(** ** The aggregation *)













#[global] Instance newer_first_trans : Transitive newer_first.
Proof. intros a b c. unfold newer_first. lia. Qed.

#[global] Instance newer_first_total : Total newer_first.
Proof. intros a b. unfold newer_first. lia. Qed.









(** *** The order of the sort key *)

Lemma list_leb_refl (a : list Z) : list_leb a a = true.
Proof.
  induction a as [|x a IH]; cbn; [reflexivity|].
  by rewrite Z.ltb_irrefl, Z.eqb_refl.
Qed.

Lemma list_leb_total (a : list Z) :
  forall b, list_leb a b = true \/ list_leb b a = true.
Proof.
  induction a as [|x a IH]; intros [|y b]; cbn; auto.
  destruct (Z.ltb_spec x y), (Z.ltb_spec y x), (Z.eqb_spec x y),
    (Z.eqb_spec y x); auto; lia.
Qed.

Lemma list_leb_trans (a : list Z) :
  forall b c, list_leb a b = true -> list_leb b c = true ->
              list_leb a c = true.
Proof.
  induction a as [|x a IH]; intros [|y b] [|z c]; cbn; auto;
    try discriminate.
  destruct (Z.ltb_spec x y), (Z.ltb_spec y z), (Z.ltb_spec x z),
    (Z.eqb_spec x y), (Z.eqb_spec y z), (Z.eqb_spec x z);
    auto; try discriminate; try lia.
  apply IH.
Qed.

Lemma list_leb_antisym (a : list Z) :
  forall b, list_leb a b = true -> list_leb b a = true -> a = b.
Proof.
  induction a as [|x a IH]; intros [|y b]; cbn; auto; try discriminate.
  destruct (Z.ltb_spec x y), (Z.ltb_spec y x), (Z.eqb_spec x y),
    (Z.eqb_spec y x); try discriminate; try lia.
  intros H1 H2. subst y. f_equal. by apply IH.
Qed.

Lemma key_le_cases (a b : list Z) :
  key_le a b <->
  (length a < length b)%nat \/ (length a = length b /\ list_leb a b = true).
Proof.
  unfold key_le, key_leb.
  rewrite orb_true_iff, andb_true_iff, Nat.ltb_lt, Nat.eqb_eq. reflexivity.
Qed.

#[global] Instance key_le_trans : Transitive key_le.
Proof.
  intros a b c. rewrite !key_le_cases.
  intros [H1|[H1 L1]] [H2|[H2 L2]]; try (left; lia).
  right. split; [lia|]. by eapply list_leb_trans.
Qed.

#[global] Instance key_le_total : Total key_le.
Proof.
  intros a b. rewrite !key_le_cases.
  destruct (lt_eq_lt_dec (length a) (length b)) as [[H|H]|H]; auto.
  destruct (list_leb_total a b); auto.
Qed.

#[global] Instance key_le_antisym : AntiSymm eq key_le.
Proof.
  intros a b. rewrite !key_le_cases.
  intros [H1|[H1 L1]] [H2|[H2 L2]]; try lia. by apply list_leb_antisym.
Qed.










(** A store after two requests: [2, 1], then [3, 1, 1]. *)
Example list_latest_ex :
  fst ((let* _ := create_from_sequence [2; 1] in
        let* _ := create_from_sequence [3; 1; 1] in
        list_latest 5) empty_world)
  = Returned [mkListItem [1; 3] [[3]; [1; 3]];
              mkListItem [1; 2] [[1]; [2]; [1; 2]]].
Proof. vm_compute. reflexivity. Qed.


(** The writes of an accepted request keep every stored [sequence_id]
    convertible: the aggregation of [latest_grouped] cannot fail on what
    the service itself has written. *)
Lemma create_from_sequence_keeps_convertible (input : list Z)
    (w w' : World) (r : CreateResult) :
  create_from_sequence input w = (Returned r, w') ->
  sequence_ids_convertible w -> sequence_ids_convertible w'.
Proof.
  intros E Hc. destruct (create_from_sequence_accepted _ _ _ _ E) as [Hn Hr].
  destruct (create_from_sequence_outcome input w Hn Hr)
    as (docs & reads & trace & E' & _ & _ & Hcase). cbv zeta in E'.
  rewrite E in E'. apply (f_equal snd) in E'. cbn [snd] in E'. subst w'.
  unfold sequence_ids_convertible in *. cbn [subsequences].
  apply Forall_forall. intros s Hs. apply list_elem_of_In in Hs.
  apply put_all_In in Hs as [Hs|Hs]; cbn [fst] in Hs.
  - rewrite Forall_forall in Hc. apply Hc, list_elem_of_In, Hs.
  - destruct Hcase as [(_ & _ & Hall)|(_ & now & _ & ->)].
    + rewrite Forall_forall in Hall.
      apply list_elem_of_In, Hall in Hs. rewrite Hs. discriminate.
    + apply in_map_iff in Hs as (x & <- & _). cbn [bulk_doc sub_sequence_id].
      cbn [toObjectId]. rewrite ObjectId_of_hex24_new. discriminate.
Qed.

(** * Further properties *)

(** ** The enumerator again: nothing is missed *)

Lemma combinations_sublist (l : list Z) :
  forall (k : nat) (c : list Z), In c (combinations l k) -> sublist c l.
Proof.
  induction l as [|x l IH]; intros [|k] c Hc; simpl in Hc.
  - destruct Hc as [<-|[]]. constructor.
  - destruct Hc.
  - destruct Hc as [<-|[]]. apply sublist_nil_l.
  - apply in_app_or in Hc as [Hc|Hc].
    + apply in_map_iff in Hc as (c' & <- & Hc').
      apply sublist_skip. eauto.
    + apply sublist_cons. eauto.
Qed.

Lemma sublist_combinations (c l : list Z) :
  sublist c l -> In c (combinations l (length c)).
Proof.
  induction 1 as [|x c l Hs IH|x c l Hs IH].
  - left. reflexivity.
  - cbn [length combinations]. apply in_or_app. left. by apply in_map.
  - destruct c as [|y c].
    + cbn [length]. rewrite combinations_0. by left.
    + cbn [length combinations] in *. apply in_or_app. right. exact IH.
Qed.

(** X1.  On any list, canonical or not, the enumerator yields exactly
    the non-empty lists that can be read off the input from left to
    right, skipping items: nothing else, and none of them is missed. *)
Theorem generate_subsequences_complete (l s : list Z) :
  In s (generate_subsequences l) <-> s <> [] /\ sublist s l.
Proof.
  split.
  - intros H. apply generate_subsequences_In in H as (k & Hk & H).
    split; [|by eapply combinations_sublist].
    intros ->. apply combinations_length in H. cbn in H. lia.
  - intros [Hne Hs]. unfold generate_subsequences.
    apply in_concat. exists (combinations l (length s)).
    split; [|by apply sublist_combinations].
    apply in_map, in_seq. pose proof (sublist_length _ _ Hs).
    destruct s; [done|]. cbn [length] in *. lia.
Qed.

(** ** The canonicalizer again *)

(** X2.  The canonical sequences are exactly the strictly ascending
    lists: [canonical_sequence] leaves a list as it is if and only if
    the list is strictly ascending; in particular canonicalizing twice is
    canonicalizing once. *)
Theorem canonical_sequence_fixed_points (l : list Z) :
  (canonical_sequence l = l <-> StronglySorted Z.lt l) /\
  canonical_sequence (canonical_sequence l) = canonical_sequence l.
Proof.
  assert (Hfix : forall m, StronglySorted Z.lt m -> canonical_sequence m = m).
  { intros m Hm. apply (StronglySorted_unique Z.le).
    - apply (StronglySorted_merge_sort Z.le).
    - eapply StronglySorted_weaken; [|exact Hm]. intros a b. lia.
    - apply NoDup_Permutation.
      + apply canonical_sequence_NoDup.
      + eapply StronglySorted_strict_NoDup; [|exact Hm]. intros a b. lia.
      + intros x. rewrite !list_elem_of_In. apply canonical_sequence_In. }
  split; [split|].
  - intros <-. apply canonical_sequence_ascending.
  - apply Hfix.
  - apply Hfix, canonical_sequence_ascending.
Qed.

Lemma canonical_sequence_nil (l : list Z) :
  canonical_sequence l = [] -> l = [].
Proof.
  intros E. destruct l as [|x l]; [reflexivity|].
  assert (Hx : In x (canonical_sequence (x :: l)))
    by (apply canonical_sequence_In; by left).
  rewrite E in Hx. destruct Hx.
Qed.

(** X3.  Canonicalizing never lengthens a list, keeps the length exactly
    when the input has no repeated value, and gives the empty list only
    for the empty input. *)
Theorem canonical_sequence_length (l : list Z) :
  (length (canonical_sequence l) <= length l)%nat /\
  (length (canonical_sequence l) = length l <-> NoDup l) /\
  (canonical_sequence l = [] <-> l = []).
Proof.
  assert (Hsub : canonical_sequence l ⊆+ l).
  { apply NoDup_submseteq; [apply canonical_sequence_NoDup|].
    intros x. rewrite !list_elem_of_In. apply canonical_sequence_In. }
  split; [by apply submseteq_length|]. split; [split|split].
  - intros E. apply submseteq_length_Permutation in Hsub; [|lia].
    rewrite <- Hsub. apply canonical_sequence_NoDup.
  - intros Hnd. apply Permutation_length, NoDup_Permutation;
      [apply canonical_sequence_NoDup | exact Hnd |].
    intros x. rewrite !list_elem_of_In. apply canonical_sequence_In.
  - apply canonical_sequence_nil.
  - intros ->. vm_compute. reflexivity.
Qed.

(** ** The shape of a digest *)

Lemma hex_digit_lower (v : Z) :
  0 <= v < 16 -> lower_hex (SHA256.hex_digit v) = true.
Proof.
  intros Hv. rewrite <- (Z2Nat.id v) by lia.
  assert (Hk : (Z.to_nat v < 16)%nat) by lia.
  generalize dependent (Z.to_nat v). intros k Hk.
  do 16 (destruct k as [|k]; [reflexivity|]). lia.
Qed.

Lemma round_length (st : list Z) (kw : Z * Z) :
  length st = 8%nat -> length (SHA256.round st kw) = 8%nat.
Proof.
  intros H. do 9 (destruct st as [|? st]; try discriminate). reflexivity.
Qed.

Lemma fold_round_length (kws : list (Z * Z)) :
  forall st : list Z,
  length st = 8%nat -> length (fold_left SHA256.round kws st) = 8%nat.
Proof.
  induction kws as [|kw kws IH]; intros st H; cbn [fold_left]; [exact H|].
  apply IH. by apply round_length.
Qed.

Lemma compress_length (h block : list Z) :
  length h = 8%nat -> length (SHA256.compress h block) = 8%nat.
Proof.
  intros H. unfold SHA256.compress.
  rewrite length_map, length_combine, fold_round_length, H by exact H.
  reflexivity.
Qed.

Lemma blocks_length (n : nat) :
  forall h bs : list Z,
  length h = 8%nat -> length (SHA256.blocks n h bs) = 8%nat.
Proof.
  induction n as [|n IH]; intros h bs H; cbn [SHA256.blocks]; [exact H|].
  apply IH. by apply compress_length.
Qed.

Lemma be_bytes_length (len : nat) (x : Z) :
  length (SHA256.be_bytes len x) = len.
Proof. induction len as [|len IH]; cbn [SHA256.be_bytes length]; auto. Qed.

Lemma be_bytes_range (len : nat) (x : Z) :
  Forall (fun b => 0 <= b < 256) (SHA256.be_bytes len x).
Proof.
  induction len as [|len IH]; cbn [SHA256.be_bytes]; constructor; [|exact IH].
  apply Z.mod_pos_bound. lia.
Qed.

Lemma digest_shape (msg : list Z) :
  length (SHA256.digest msg) = 32%nat /\
  Forall (fun b => 0 <= b < 256) (SHA256.digest msg).
Proof.
  unfold SHA256.digest.
  set (hs := SHA256.blocks _ _ _).
  assert (Hl : length hs = 8%nat) by (apply blocks_length; reflexivity).
  clearbody hs. split.
  - do 9 (destruct hs as [|? hs]; try discriminate). cbn [map concat].
    rewrite !length_app, !be_bytes_length. reflexivity.
  - apply Forall_concat, Forall_forall. intros bs Hbs.
    apply list_elem_of_In, in_map_iff in Hbs as (x & <- & _).
    apply be_bytes_range.
Qed.

Lemma string_app_chars (a b : string) :
  list_ascii_of_string (a ++ b)
  = list_ascii_of_string a ++ list_ascii_of_string b.
Proof. induction a as [|c a IH]; simpl; [reflexivity | congruence]. Qed.

Lemma concat_empty_chars (ls : list string) :
  list_ascii_of_string (String.concat EmptyString ls)
  = flat_map list_ascii_of_string ls.
Proof.
  induction ls as [|x ls IH]; [reflexivity|].
  destruct ls as [|y ls].
  - cbn. by rewrite app_nil_r.
  - change (String.concat EmptyString (x :: y :: ls))
      with (x ++ (EmptyString ++ String.concat EmptyString (y :: ls)))%string.
    rewrite string_app_chars.
    change (EmptyString ++ String.concat EmptyString (y :: ls))%string
      with (String.concat EmptyString (y :: ls)).
    rewrite IH. reflexivity.
Qed.

Lemma hexdigest_chars (s : string) :
  list_ascii_of_string (SHA256.hexdigest s)
  = flat_map (fun b => [SHA256.hex_digit (b / 16);
                        SHA256.hex_digit (b mod 16)])
             (SHA256.digest (SHA256.bytes_of_string s)).
Proof.
  unfold SHA256.hexdigest. rewrite concat_empty_chars.
  induction (SHA256.digest _) as [|b bs IH]; [reflexivity|].
  cbn [map flat_map]. rewrite IH. reflexivity.
Qed.

Lemma string_length_chars (s : string) :
  String.length s = length (list_ascii_of_string s).
Proof. induction s as [|c s IH]; cbn; auto. Qed.

Lemma hex_chars_shape (bs : list Z) :
  Forall (fun b => 0 <= b < 256) bs ->
  let cs := flat_map (fun b => [SHA256.hex_digit (b / 16);
                                SHA256.hex_digit (b mod 16)]) bs in
  length cs = (2 * length bs)%nat /\
  Forall (fun c => lower_hex c = true) cs.
Proof.
  induction 1 as [|b bs Hb Hbs [IH1 IH2]]; cbv zeta;
    cbn [flat_map length app].
  - split; [reflexivity | constructor].
  - cbv zeta in IH1. split; [lia|].
    constructor; [apply hex_digit_lower|constructor; [apply hex_digit_lower|]].
    + split; [apply Z.div_pos; lia | apply Z.div_lt_upper_bound; lia].
    + apply Z.mod_pos_bound. lia.
    + exact IH2.
Qed.

(** X4.  Every digest of the content hasher is 64 characters long and
    made of the characters 0-9 and a-f only, whatever the items. *)
Theorem hash_items_format (items : list Z) :
  String.length (_hash_items items) = 64%nat /\
  Forall (fun c => lower_hex c = true)
         (list_ascii_of_string (_hash_items items)).
Proof.
  unfold _hash_items. rewrite string_length_chars, hexdigest_chars.
  destruct (digest_shape (SHA256.bytes_of_string (hash_key items)))
    as [Hl Hr].
  destruct (hex_chars_shape _ Hr) as [H1 H2]. cbv zeta in H1.
  split; [rewrite H1, Hl; reflexivity | exact H2].
Qed.

(** ** Empty input, validation and the route *)

Lemma create_from_sequence_over_limit (input : list Z) (w : World) :
  (18 < length (canonical_sequence input))%nat ->
  create_from_sequence input w =
  (Raised (ValueError
             (too_large_message
                (Z.of_nat (length (canonical_sequence input))) 18
                (2 ^ 18 - 1))), w).
Proof.
  intros Hn. unfold create_from_sequence.
  destruct (Z.eqb_spec (Z.of_nat (length (canonical_sequence input))) 0);
    [lia|].
  destruct (Z.gtb_spec (Z.of_nat (length (canonical_sequence input))) 18);
    [reflexivity | lia].
Qed.

(** X5.  The service refuses an input exactly when it has to: with the
    "at least one element" error, and the world untouched, if and only if
    the input list is empty. *)
Theorem create_from_sequence_empty (input : list Z) (w : World) :
  create_from_sequence [] w = (Raised (ValueError empty_message), w) /\
  (fst (create_from_sequence input w) = Raised (ValueError empty_message)
   <-> input = []).
Proof.
  split; [reflexivity|]. split.
  - intros H. destruct input as [|x l]; [reflexivity|]. exfalso.
    assert (Hne : canonical_sequence (x :: l) <> []).
    { intros E. by apply canonical_sequence_nil in E. }
    destruct (le_lt_dec (length (canonical_sequence (x :: l))) 18) as [Hle|Hgt].
    + assert (Hn : (1 <= length (canonical_sequence (x :: l)) <= 18)%nat).
      { destruct (canonical_sequence (x :: l)); [done|]. cbn [length] in *. lia. }
      destruct (bson_ints (x :: l)) eqn:Hr.
      * destruct (create_from_sequence_outcome (x :: l) w Hn Hr)
          as (docs & reads & trace & E & _). cbv zeta in E.
        rewrite E in H. discriminate H.
      * rewrite (create_from_sequence_overflow (x :: l) w Hn Hr) in H.
        discriminate H.
    + rewrite create_from_sequence_over_limit in H by lia.
      cbn [fst] in H. injection H as H.
      unfold too_large_message, empty_message in H.
      cbn [String.append] in H. discriminate H.
  - intros ->. reflexivity.
Qed.

Lemma positive_ids_loop_spec (v : list Z) :
  forall idx : Z,
  match positive_ids_loop idx v with
  | None => Forall (fun x => 0 < x) v
  | Some e =>
      exists (before : list Z) (x : Z) (after : list Z),
        v = before ++ x :: after /\
        Forall (fun y => 0 < y) before /\ x <= 0 /\
        e = ValueError (positive_message (idx + Z.of_nat (length before)))
  end.
Proof.
  induction v as [|x v IH]; intros idx; cbn [positive_ids_loop].
  - constructor.
  - destruct (Z.leb_spec x 0) as [Hx|Hx].
    + exists [], x, v. cbn [length app]. rewrite Z.add_0_r.
      split; [reflexivity|]. split; [constructor|]. by split.
    + specialize (IH (idx + 1)).
      destruct (positive_ids_loop (idx + 1) v) as [e|].
      * destruct IH as (before & y & after & -> & Hb & Hy & ->).
        exists (x :: before), y, after. cbn [length app].
        split; [reflexivity|]. split; [by constructor|]. split; [exact Hy|].
        do 2 f_equal. lia.
      * by constructor.
Qed.

(** X6.  The validator of [SequenceIn.items] returns its input unchanged
    exactly when every item is positive; otherwise it raises a
    [ValueError] that names the position, counted from 0, of the first
    item that is not positive. *)
Theorem validate_positive_ids_spec (v : list Z) :
  (validate_positive_ids v = Returned v <-> Forall (fun x => 0 < x) v) /\
  (forall e, validate_positive_ids v = Raised e ->
     exists (before : list Z) (x : Z) (after : list Z),
       v = before ++ x :: after /\
       Forall (fun y => 0 < y) before /\ x <= 0 /\
       e = ValueError (positive_message (Z.of_nat (length before)))) /\
  (forall v', validate_positive_ids v = Returned v' -> v' = v).
Proof.
  unfold validate_positive_ids.
  pose proof (positive_ids_loop_spec v 0) as H.
  destruct (positive_ids_loop 0 v) as [e|].
  - destruct H as (before & x & after & -> & Hb & Hx & ->).
    split; [split; [discriminate|]|split; [|discriminate]].
    + intros Hall. apply Forall_app in Hall as [_ Hall].
      apply Forall_cons in Hall as [Hall _]. lia.
    + intros e [= <-]. exists before, x, after. auto.
  - split; [split; [done | reflexivity]|]. split; [discriminate|].
    by intros v' [= <-].
Qed.

(** X7.  On the items of a payload that passed validation (a non-empty
    list that the validator returns, so every item is positive) the route
    never answers with the "at least one element" error.  With at most
    18 distinct values, all within 8 bytes, it returns the stored
    identifier, the canonical items and 2^n - 1; with at most 18
    distinct values and one beyond 8 bytes, the [OverflowError] of the
    driver goes through the route, which catches [ValueError] only, and
    nothing is stored; with more than 18 distinct values it answers 422
    with the size-limit message, the world untouched. *)
Theorem create_sequences_validated (v : list Z) (w : World) :
  v <> [] ->
  validate_positive_ids v = Returned v ->
  let n := length (canonical_sequence v) in
  Forall (fun x => 0 < x) v /\ (1 <= n)%nat /\
  ((n <= 18)%nat -> Forall (fun x => x < 2 ^ 63) v ->
   exists (r : CreateResult) (w' : World),
     create_sequences v w = (Ok r, w') /\
     items r = canonical_sequence v /\
     total_subsequences r = 2 ^ Z.of_nat n - 1) /\
  ((n <= 18)%nat -> ~ Forall (fun x => x < 2 ^ 63) v ->
   exists w' : World,
     create_sequences v w = (Unhandled OverflowError, w') /\
     sequences w' = sequences w /\
     subsequences w' = subsequences w /\
     calls w' = calls w) /\
  ((18 < n)%nat ->
   create_sequences v w =
   (HTTPException 422 (too_large_message (Z.of_nat n) 18 262143), w)).
Proof.
  intros Hne Hv. cbv zeta.
  assert (Hpos : Forall (fun x => 0 < x) v).
  { unfold validate_positive_ids in Hv.
    pose proof (positive_ids_loop_spec v 0) as H.
    destruct (positive_ids_loop 0 v); [discriminate | exact H]. }
  split; [exact Hpos|].
  assert (Hn : (1 <= length (canonical_sequence v))%nat).
  { destruct (canonical_sequence v) eqn:E; [|cbn; lia].
    by apply canonical_sequence_nil in E. }
  split; [exact Hn|]. split; [|split].
  - intros Hle Hr.
    assert (Hr' : bson_ints v = true).
    { apply bson_ints_Forall, Forall_forall. intros x Hx.
      rewrite Forall_forall in Hpos, Hr.
      specialize (Hpos x Hx). specialize (Hr x Hx). lia. }
    destruct (create_from_sequence_outcome v w (conj Hn Hle) Hr')
      as (docs & reads & trace & E & _). cbv zeta in E.
    unfold create_sequences. rewrite E. eexists _, _.
    split; [reflexivity|]. split; reflexivity.
  - intros Hle Hr.
    assert (Hr' : bson_ints v = false).
    { destruct (bson_ints v) eqn:E; [|reflexivity]. exfalso. apply Hr.
      apply bson_ints_Forall in E. eapply Forall_impl; [exact E|].
      intros x. cbv beta. lia. }
    unfold create_sequences.
    rewrite (create_from_sequence_overflow v w (conj Hn Hle) Hr').
    eexists. split; [reflexivity|]. destruct w. auto.
  - intros Hgt. unfold create_sequences.
    rewrite create_from_sequence_over_limit by lia. reflexivity.
Qed.

Lemma create_sequences_validated_witness :
  [3; 1; 3] <> [] /\
  validate_positive_ids [3; 1; 3] = Returned [3; 1; 3] /\
  (1 <= length (canonical_sequence [3; 1; 3]%Z))%nat.
Proof.
  assert (Hne : [3; 1; 3] <> ([] : list Z)) by discriminate.
  assert (H : validate_positive_ids [3; 1; 3] = Returned [3; 1; 3])
    by (vm_compute; reflexivity).
  split; [exact Hne|]. split; [exact H|].
  exact (proj1 (proj2 (create_sequences_validated [3; 1; 3] empty_world
                         Hne H))).
Defined.

Example create_sequences_overflow :
  fst (create_sequences [2 ^ 63] empty_world) = Unhandled OverflowError.
Proof. vm_compute. reflexivity. Qed.

(** ** What the writes keep *)

Lemma hash_items_sorted (l : list Z) : _hash_items (sorted l) = _hash_items l.
Proof.
  unfold _hash_items. f_equal. apply hash_key_eq_iff, sorted_Permutation.
Qed.

Lemma sorted_sorted (l : list Z) : sorted (sorted l) = sorted l.
Proof. apply sorted_eq_iff_Permutation, sorted_Permutation. Qed.

Lemma individual_docs_consistent (sid : string) (clk : nat -> datetime)
    (l : list (list Z)) :
  forall r : nat, Forall doc_consistent (individual_docs sid clk r l).
Proof.
  induction l as [|s l IH]; intros r; cbn [individual_docs]; constructor.
  - split; cbn; [symmetry; apply hash_items_sorted | apply sorted_sorted].
  - apply IH.
Qed.

Lemma bulk_docs_consistent (sid : string) (now : datetime)
    (l : list (list Z)) :
  Forall doc_consistent (map (bulk_doc sid now) l).
Proof.
  apply Forall_forall. intros d Hd.
  apply list_elem_of_In, in_map_iff in Hd as (s & <- & _).
  split; cbn; [symmetry; apply hash_items_sorted | apply sorted_sorted].
Qed.

Lemma put_all_consistent (docs : list SubsequenceDoc)
    (st : list (Stored SubsequenceDoc) * N) :
  Forall doc_consistent docs ->
  Forall (fun s => doc_consistent (doc s)) (fst st) ->
  Forall (fun s => doc_consistent (doc s)) (fst (put_all st docs)).
Proof.
  intros Hd Hst. apply Forall_forall. intros s Hs.
  apply list_elem_of_In, put_all_In in Hs as [Hs|Hs].
  - rewrite Forall_forall in Hst. by apply Hst, list_elem_of_In.
  - rewrite Forall_forall in Hd. by apply Hd, list_elem_of_In.
Qed.

(** A refused request leaves the world as it was. *)
Lemma create_from_sequence_refused (input : list Z) (w : World) :
  ~ (1 <= length (canonical_sequence input) <= 18)%nat ->
  snd (create_from_sequence input w) = w.
Proof.
  intros Hn. unfold create_from_sequence.
  destruct (Z.eqb_spec (Z.of_nat (length (canonical_sequence input))) 0);
    [reflexivity|].
  destruct (Z.gtb_spec (Z.of_nat (length (canonical_sequence input))) 18);
    [reflexivity|]. lia.
Qed.

(** X8.  An accepted request only appends: it adds one Sequence document
    after those stored, and Subsequence documents after those stored,
    none of which is changed or removed.  Each added document holds a
    subsequence of the request and a hash that no stored document had,
    no two added documents share a hash, and there are at most 2^n - 1 of
    them: the first request to write an item set keeps it. *)
Theorem create_from_sequence_append_only (input : list Z) (w w' : World)
    (r : CreateResult) :
  create_from_sequence input w = (Returned r, w') ->
  exists (seq_doc : Stored SequenceDoc) (new : list (Stored SubsequenceDoc)),
    sequences w' = sequences w ++ [seq_doc] /\
    seq_items (doc seq_doc) = canonical_sequence input /\
    oid_hex (doc_id seq_doc) = id r /\
    subsequences w' = subsequences w ++ new /\
    Forall (fun s =>
              has_hash (sub_items_hash (doc s)) (subsequences w) = false /\
              In (sub_items (doc s))
                 (generate_subsequences (canonical_sequence input)))
           new /\
    NoDup (hashes new) /\
    (length new <= 2 ^ length (canonical_sequence input) - 1)%nat.
Proof.
  intros E. destruct (create_from_sequence_accepted _ _ _ _ E) as [Hn Hr].
  destruct (create_from_sequence_outcome input w Hn Hr)
    as (docs & reads & trace & E' & Hh & Hi & _). cbv zeta in E'.
  rewrite E in E'. pose proof (f_equal snd E') as Ew.
  pose proof (f_equal fst E') as Er. cbn [fst snd] in Ew, Er.
  apply Returned_inj in Er. subst r w'. clear E E'.
  destruct (put_all_grows docs (subsequences w, (oid_counter w + 1)%N))
    as (new & En & H1 & H2 & H3). cbn [fst] in En, H2.
  eexists _, new. cbn [sequences subsequences doc doc_id seq_items id].
  split; [reflexivity|]. split; [reflexivity|]. split; [reflexivity|].
  split; [exact En|]. split; [|split; [exact H3|]].
  - apply Forall_forall. intros s Hs.
    rewrite Forall_forall in H1, H2.
    specialize (H1 s Hs). specialize (H2 s Hs). split.
    + destruct (has_hash _ _) eqn:Hh'; [|reflexivity].
      apply has_hash_In in Hh'. done.
    + rewrite <- Hi. by apply in_map.
  - rewrite <- length_generate_subsequences, <- Hi, length_map.
    rewrite <- (length_map doc new). apply NoDup_incl_length.
    + apply NoDup_ListNoDup. unfold hashes in H3.
      rewrite <- (map_map doc sub_items_hash) in H3.
      by apply NoDup_fmap_1 in H3.
    + intros d Hd. apply in_map_iff in Hd as (s & <- & Hs).
      rewrite Forall_forall in H1. by apply H1, list_elem_of_In.
Qed.

Lemma create_from_sequence_append_only_witness :
  exists (r : CreateResult) (w' : World) (new : list (Stored SubsequenceDoc)),
    create_from_sequence [2; 1] empty_world = (Returned r, w') /\
    subsequences w' = subsequences empty_world ++ new.
Proof.
  destruct (create_from_sequence [2; 1] empty_world) as [o w'] eqn:E.
  destruct o as [r|e]; [|vm_compute in E; discriminate E].
  destruct (create_from_sequence_append_only [2; 1] empty_world w' r E)
    as (sd & new & _ & _ & _ & H & _).
  exists r, w', new. split; [reflexivity | exact H].
Defined.

(** X9.  Consistency of the stored subsequences is kept by every write:
    if each stored document carries the hash of its own items, with the
    items in ascending order, then so it is after [upsert_subsequence],
    after [insert_subsequences_bulk] and after [create_from_sequence],
    on any arguments, in any order of the items given. *)
Theorem store_consistent_preserved (w : World) :
  store_consistent w ->
  (forall sid subseq,
     store_consistent (snd (upsert_subsequence sid subseq w))) /\
  (forall sid l,
     store_consistent (snd (insert_subsequences_bulk sid l w))) /\
  (forall input, store_consistent (snd (create_from_sequence input w))).
Proof.
  intros Hw. unfold store_consistent in *. split; [|split].
  - intros sid subseq. destruct (bson_ints subseq) eqn:Hr;
      [|by rewrite upsert_subsequence_overflow].
    rewrite upsert_subsequence_run by exact Hr. cbn [snd subsequences].
    apply (put_all_consistent [_]); [|exact Hw].
    apply (individual_docs_consistent sid (clock w) [subseq] (clock_reads w)).
  - intros sid [|s0 l]; [exact Hw|].
    destruct (forallb bson_ints (s0 :: l)) eqn:Hr;
      [|by rewrite insert_subsequences_bulk_overflow].
    destruct (insert_subsequences_bulk_run sid (s0 :: l) w)
      as (result & _ & _ & _ & E);
      [discriminate | by apply forallb_Forall_true |].
    cbv zeta in E. rewrite E. cbn [snd subsequences].
    apply put_all_consistent; [apply bulk_docs_consistent | exact Hw].
  - intros input.
    destruct (decide ((1 <= length (canonical_sequence input) <= 18)%nat))
      as [Hn|Hn]; [|by rewrite create_from_sequence_refused].
    destruct (bson_ints input) eqn:Hr;
      [|by rewrite create_from_sequence_overflow].
    destruct (le_lt_dec (length (canonical_sequence input)) 6) as [Hs|Hl].
    + pose proof (create_from_sequence_small input w Hr) as E. cbv zeta in E.
      rewrite E by lia. cbn [snd subsequences].
      apply put_all_consistent; [apply individual_docs_consistent|exact Hw].
    + pose proof (create_from_sequence_large input w Hr) as E. cbv zeta in E.
      rewrite E by lia. cbn [snd subsequences].
      apply put_all_consistent; [apply bulk_docs_consistent | exact Hw].
Qed.

Lemma store_consistent_preserved_witness :
  store_consistent empty_world /\
  store_consistent (snd (create_from_sequence [5; 4] empty_world)).
Proof.
  assert (H : store_consistent empty_world) by constructor.
  split; [exact H|].
  exact (proj2 (proj2 (store_consistent_preserved empty_world H)) [5; 4]).
Defined.

(** ** When the listing fails *)

Example list_latest_after_unparsable_id :
  fst ((do upsert_subsequence "seq123" [1; 2] then list_latest 10)
         empty_world)
  = Raised OperationFailure.
Proof. vm_compute. reflexivity. Qed.

(** ** Writing the same items again *)

Lemma hash_items_Permutation (X Y : list Z) :
  Permutation X Y -> _hash_items X = _hash_items Y.
Proof.
  intros HP. unfold _hash_items. f_equal. by apply hash_key_eq_iff.
Qed.

(** With integers that fit 8 bytes, and only then, the call returns. *)
Lemma upsert_subsequence_returns (sid : string) (subseq : list Z)
    (w w1 : World) (u : unit) :
  upsert_subsequence sid subseq w = (Returned u, w1) ->
  bson_ints subseq = true.
Proof.
  intros E. destruct (bson_ints subseq) eqn:Hr; [reflexivity|].
  rewrite upsert_subsequence_overflow in E by exact Hr. discriminate.
Qed.

(** X12.  Once [upsert_subsequence] has returned on some items, running
    it again on the same items in any order, for any sequence identifier,
    returns normally and stores nothing: the first writer of an item set
    keeps it. *)
Theorem upsert_subsequence_again (sid sid' : string)
    (subseq subseq' : list Z) (w w1 : World) :
  Permutation subseq subseq' ->
  upsert_subsequence sid subseq w = (Returned tt, w1) ->
  fst (upsert_subsequence sid' subseq' w1) = Returned tt /\
  subsequences (snd (upsert_subsequence sid' subseq' w1)) = subsequences w1 /\
  sequences (snd (upsert_subsequence sid' subseq' w1)) = sequences w.
Proof.
  intros HP E.
  pose proof (upsert_subsequence_returns _ _ _ _ _ E) as Hr.
  assert (Hr' : bson_ints subseq' = true).
  { rewrite <- Hr. apply bson_ints_same. intros x.
    rewrite <- !list_elem_of_In. by rewrite HP. }
  rewrite upsert_subsequence_run in E by exact Hr.
  apply (f_equal snd) in E. cbn [snd] in E. subst w1.
  rewrite upsert_subsequence_run by exact Hr'.
  cbn [fst snd sequences subsequences oid_counter clock clock_reads].
  split; [reflexivity|]. split; [|reflexivity].
  set (d := individual_doc sid _ subseq).
  set (d' := individual_doc sid' _ subseq').
  change (put_if_absent (subsequences w, oid_counter w) d)
    with (put_all (subsequences w, oid_counter w) [d]).
  rewrite <- surjective_pairing.
  change (put_if_absent (put_all (subsequences w, oid_counter w) [d]) d')
    with (put_all (put_all (subsequences w, oid_counter w) [d]) [d']).
  rewrite (surjective_pairing (put_all (subsequences w, oid_counter w) [d]))
    at 1.
  rewrite (put_all_again [d] [d']); [reflexivity|].
  subst d d'. cbn [map individual_doc sub_items_hash]. f_equal.
  symmetry. by apply hash_items_Permutation.
Qed.

Lemma upsert_subsequence_again_witness :
  let w1 := snd (upsert_subsequence "a" [1; 2] empty_world) in
  Permutation [1; 2] [2; 1] /\
  upsert_subsequence "a" [1; 2] empty_world = (Returned tt, w1) /\
  subsequences (snd (upsert_subsequence "b" [2; 1] w1)) = subsequences w1.
Proof.
  intros w1.
  assert (H : Permutation [1; 2] [2; 1]) by apply perm_swap.
  assert (E : upsert_subsequence "a" [1; 2] empty_world = (Returned tt, w1))
    by (vm_compute; reflexivity).
  split; [exact H|]. split; [exact E|].
  exact (proj1 (proj2 (upsert_subsequence_again "a" "b" [1; 2] [2; 1]
                         empty_world w1 H E))).
Defined.

(** ** The two ways of writing, compared *)

Lemma has_hash_content (h : string) (l1 l2 : list (Stored SubsequenceDoc)) :
  map stored_content l1 = map stored_content l2 ->
  has_hash h l1 = has_hash h l2.
Proof.
  revert l2. induction l1 as [|s1 l1 IH]; intros [|s2 l2] E;
    try discriminate; [reflexivity|].
  cbn [map] in E.
  pose proof (f_equal (fun m => match m with
                                | c :: _ => snd c
                                | [] => EmptyString
                                end) E) as Eh.
  pose proof (f_equal (@tail _) E) as Et. cbn [tail stored_content snd] in *.
  unfold has_hash. cbn [existsb]. rewrite Eh. f_equal. by apply IH.
Qed.

Lemma put_all_content (docs1 : list SubsequenceDoc) :
  forall (docs2 : list SubsequenceDoc)
         (l1 l2 : list (Stored SubsequenceDoc)) (c : N),
  map doc_content docs1 = map doc_content docs2 ->
  map stored_content l1 = map stored_content l2 ->
  map stored_content (fst (put_all (l1, c) docs1))
  = map stored_content (fst (put_all (l2, c) docs2)).
Proof.
  induction docs1 as [|d1 docs1 IH]; intros [|d2 docs2] l1 l2 c Ed El;
    try discriminate; [exact El|].
  cbn [map] in Ed.
  pose proof (f_equal (fun m => match m with
                                | c :: _ => fst c
                                | [] => []
                                end) Ed) as Ei.
  pose proof (f_equal (fun m => match m with
                                | c :: _ => snd c
                                | [] => EmptyString
                                end) Ed) as Eh.
  pose proof (f_equal (@tail _) Ed) as Eds.
  cbn [tail doc_content fst snd] in Ei, Eh, Eds.
  cbn [put_all fold_left]. unfold put_if_absent. cbn [fst snd].
  rewrite Eh, (has_hash_content _ l1 l2 El).
  destruct (has_hash (sub_items_hash d2) l2).
  - by apply IH.
  - apply IH; [exact Eds|]. rewrite !map_app, El. cbn [map].
    unfold stored_content. cbn [doc]. by rewrite Ei, Eh.
Qed.

Lemma individual_docs_content (sid : string) (clk : nat -> datetime)
    (l : list (list Z)) :
  forall r : nat,
  map doc_content (individual_docs sid clk r l)
  = map (fun s => (sorted s, _hash_items s)) l.
Proof.
  induction l as [|s l IH]; intros r; cbn [individual_docs map];
    [reflexivity|].
  by rewrite IH.
Qed.

(** X13.  The two ways of writing store the same thing: on the same
    world and the same list of subsequences, whose integers fit 8 bytes,
    one [upsert_subsequence] per subsequence and one
    [insert_subsequences_bulk] leave the collection with the same
    documents as to items and hash, in the same order, whatever the two
    sequence identifiers.  They differ in [sequence_id] and
    [created_at]. *)
Theorem write_strategies_agree (sid sid' : string) (l : list (list Z))
    (w : World) :
  Forall (Forall (fun x => - 2 ^ 63 <= x < 2 ^ 63)) l ->
  map stored_content
      (subsequences
         (snd (for_each l (fun s => upsert_subsequence sid s) w)))
  = map stored_content
      (subsequences (snd (insert_subsequences_bulk sid' l w))).
Proof.
  intros Hr.
  assert (Hr' : Forall (fun items => bson_ints items = true) l).
  { eapply Forall_impl; [exact Hr|]. intros x. apply bson_ints_Forall. }
  rewrite for_each_upsert_run by exact Hr'. cbn [snd subsequences].
  destruct l as [|s0 l]; [reflexivity|].
  destruct (insert_subsequences_bulk_run sid' (s0 :: l) w)
    as (result & _ & _ & _ & E); [discriminate | exact Hr' |].
  cbv zeta in E. rewrite E. cbn [snd subsequences].
  apply put_all_content; [|reflexivity].
  rewrite individual_docs_content, map_map. reflexivity.
Qed.

Lemma write_strategies_agree_witness :
  Forall (Forall (fun x => - 2 ^ 63 <= x < 2 ^ 63)) [[2; 1]; [1; 2]; [3]] /\
  map stored_content
      (subsequences
         (snd (for_each [[2; 1]; [1; 2]; [3]]
                 (fun s => upsert_subsequence "a" s) empty_world)))
  = map stored_content
      (subsequences
         (snd (insert_subsequences_bulk "b" [[2; 1]; [1; 2]; [3]]
                 empty_world))).
Proof.
  assert (H : Forall (Forall (fun x => - 2 ^ 63 <= x < 2 ^ 63))
                [[2; 1]; [1; 2]; [3]])
    by (repeat constructor; lia).
  split; [exact H|].
  exact (write_strategies_agree "a" "b" [[2; 1]; [1; 2]; [3]] empty_world H).
Defined.

(** ** Create, then list *)











(** ** Requests that share subsequences *)

Lemma filter_hash_none (h : string) (l : list (Stored SubsequenceDoc)) :
  has_hash h l = false ->
  List.filter (fun s => String.eqb (sub_items_hash (doc s)) h) l = [].
Proof.
  unfold has_hash. induction l as [|s l IH]; cbn [existsb List.filter];
    [reflexivity|].
  intros H. apply orb_false_iff in H as [H1 H2]. rewrite H1. by apply IH.
Qed.

Lemma filter_hash_one (h : string) (l : list (Stored SubsequenceDoc)) :
  NoDup (hashes l) -> has_hash h l = true ->
  length (List.filter (fun s => String.eqb (sub_items_hash (doc s)) h) l)
  = 1%nat.
Proof.
  induction l as [|s l IH]; intros Hnd Hh; [discriminate|].
  cbn [hashes map] in Hnd. apply NoDup_cons in Hnd as [Hs Hnd].
  cbn [has_hash existsb] in Hh. cbn [List.filter].
  destruct (String.eqb_spec (sub_items_hash (doc s)) h) as [E|E].
  - cbn [length]. f_equal. rewrite filter_hash_none; [reflexivity|].
    destruct (has_hash h l) eqn:Hl; [|reflexivity].
    exfalso. apply Hs. rewrite E. apply list_elem_of_In.
    by apply has_hash_In.
  - apply IH; [exact Hnd | exact Hh].
Qed.

(** X15.  A subsequence shared by two requests is stored once, by the
    first.  On a store with pairwise distinct hashes, after one accepted
    request and then any other accepted request, each subsequence of the
    first request has exactly one stored document with its hash, and the
    second request neither replaced it nor added another. *)
Theorem shared_subsequence_stored_once (input1 input2 : list Z)
    (w w1 w2 : World) (r1 r2 : CreateResult) (s : list Z) :
  NoDup (hashes (subsequences w)) ->
  create_from_sequence input1 w = (Returned r1, w1) ->
  create_from_sequence input2 w1 = (Returned r2, w2) ->
  In s (generate_subsequences (canonical_sequence input1)) ->
  let same_hash := fun d : Stored SubsequenceDoc =>
                     String.eqb (sub_items_hash (doc d)) (_hash_items s) in
  length (List.filter same_hash (subsequences w1)) = 1%nat /\
  List.filter same_hash (subsequences w2)
  = List.filter same_hash (subsequences w1).
Proof.
  intros Hnd E1 E2 Hs same_hash.
  destruct (create_from_sequence_accepted _ _ _ _ E1) as [Hn1 Hr1].
  destruct (create_from_sequence_accepted _ _ _ _ E2) as [Hn2 Hr2].
  destruct (create_from_sequence_outcome input1 w Hn1 Hr1)
    as (docs1 & reads1 & trace1 & E1' & Hh1 & _ & _). cbv zeta in E1'.
  rewrite E1 in E1'. apply (f_equal snd) in E1'. cbn [snd] in E1'.
  destruct (create_from_sequence_outcome input2 w1 Hn2 Hr2)
    as (docs2 & reads2 & trace2 & E2' & _ & _ & _). cbv zeta in E2'.
  rewrite E2 in E2'. apply (f_equal snd) in E2'. cbn [snd] in E2'.
  assert (Hin : has_hash (_hash_items s) (subsequences w1) = true).
  { rewrite E1'. cbn [subsequences].
    assert (Hd : In (_hash_items s) (map sub_items_hash docs1))
      by (rewrite Hh1; by apply in_map).
    apply in_map_iff in Hd as (d & <- & Hd). by apply put_all_has. }
  assert (Hnd1 : NoDup (hashes (subsequences w1))).
  { rewrite E1'. cbn [subsequences]. by apply put_all_unique. }
  split; [by apply filter_hash_one|].
  destruct (put_all_grows docs2 (subsequences w1, (oid_counter w1 + 1)%N))
    as (new & En & _ & Hnew & _). cbn [fst] in En, Hnew.
  rewrite E2'. cbn [subsequences]. rewrite En, List.filter_app.
  replace (List.filter same_hash new) with (@nil (Stored SubsequenceDoc));
    [by rewrite app_nil_r|].
  symmetry. clear En. induction Hnew as [|d new Hd Hnew IH];
    [reflexivity|].
  cbn [List.filter]. subst same_hash. cbn beta.
  destruct (String.eqb_spec (sub_items_hash (doc d)) (_hash_items s))
    as [E|E]; [|exact IH].
  exfalso. apply Hd. rewrite E. by apply has_hash_In.
Qed.

Lemma shared_subsequence_stored_once_witness :
  exists (r1 r2 : CreateResult) (w1 w2 : World),
    NoDup (hashes (subsequences empty_world)) /\
    create_from_sequence [1; 2] empty_world = (Returned r1, w1) /\
    create_from_sequence [1; 2; 3] w1 = (Returned r2, w2) /\
    In [1; 2] (generate_subsequences (canonical_sequence [1; 2])) /\
    length (List.filter
              (fun d => String.eqb (sub_items_hash (doc d))
                                   (_hash_items [1; 2]))
              (subsequences w2)) = 1%nat.
Proof.
  destruct (create_from_sequence [1; 2] empty_world) as [o1 w1] eqn:E1.
  destruct o1 as [r1|e]; [|vm_compute in E1; discriminate E1].
  destruct (create_from_sequence [1; 2; 3] w1) as [o2 w2] eqn:E2.
  destruct o2 as [r2|e].
  2:{ exfalso.
      assert (Hn : (1 <= length (canonical_sequence [1; 2; 3]%Z) <= 18)%nat)
        by (vm_compute; lia).
      destruct (create_from_sequence_outcome [1; 2; 3] w1 Hn eq_refl)
        as (? & ? & ? & E & _). cbv zeta in E. rewrite E2 in E.
      discriminate E. }
  assert (H0 : NoDup (hashes (subsequences empty_world))) by constructor.
  assert (Hs : In [1; 2] (generate_subsequences (canonical_sequence [1; 2])))
    by (vm_compute; auto).
  destruct (shared_subsequence_stored_once [1; 2] [1; 2; 3] empty_world
              w1 w2 r1 r2 [1; 2] H0 E1 E2 Hs) as [L1 L2].
  exists r1, r2, w1, w2. split; [exact H0|]. split; [reflexivity|].
  split; [exact E2|]. split; [exact Hs|].
  cbv beta in L2. rewrite L2. exact L1.
Defined.

(** X16.  A request is read as a set: two inputs with the same values,
    in whatever order and with whatever repetitions, are the same
    request; they give the same result and leave the same world. *)
Theorem create_from_sequence_same_values (input input' : list Z)
    (w : World) :
  (forall x, In x input <-> In x input') ->
  create_from_sequence input w = create_from_sequence input' w.
Proof.
  intros H. unfold create_from_sequence.
  by rewrite (canonical_sequence_same_values input input' H).
Qed.

Lemma create_from_sequence_same_values_witness :
  (forall x : Z, In x [3; 1; 3; 2] <-> In x [1; 2; 3]) /\
  create_from_sequence [3; 1; 3; 2] empty_world
  = create_from_sequence [1; 2; 3] empty_world.
Proof.
  assert (H : forall x : Z, In x [3; 1; 3; 2] <-> In x [1; 2; 3])
    by (intros x; cbn; intuition).
  split; [exact H|].
  exact (create_from_sequence_same_values [3; 1; 3; 2] [1; 2; 3]
           empty_world H).
Defined.

(** ** The enumerator on inputs that are not canonical *)

Lemma combinations_NoDup (l : list Z) :
  NoDup l -> forall k : nat, NoDup (combinations l k).
Proof.
  induction 1 as [|x l Hx Hl IH]; intros [|k]; cbn [combinations].
  - apply NoDup_singleton.
  - constructor.
  - apply NoDup_singleton.
  - apply NoDup_app. split; [|split; [|apply IH]].
    + apply NoDup_fmap_2; [|apply IH]. by intros a b [= ->].
    + intros c Hc Hc'. apply list_elem_of_In in Hc, Hc'.
      apply in_map_iff in Hc as (c' & <- & _).
      apply Hx, list_elem_of_In.
      eapply combinations_incl; [exact Hc' | by left].
Qed.

Lemma combinations_1 (l : list Z) :
  combinations l 1 = map (fun x => [x]) l.
Proof.
  induction l as [|x l IH]; cbn [combinations map]; [reflexivity|].
  rewrite combinations_0, IH. reflexivity.
Qed.

(** X17.  On any list of length n the enumerator yields 2^n - 1 lists,
    and these are pairwise distinct exactly when the input has no
    repeated value: fed a list with a duplicate, it repeats results. *)
Theorem generate_subsequences_distinct_iff (l : list Z) :
  length (generate_subsequences l) = (2 ^ length l - 1)%nat /\
  (NoDup (generate_subsequences l) <-> NoDup l).
Proof.
  split; [apply length_generate_subsequences|]. split.
  - intros H. destruct l as [|x l]; [constructor|].
    unfold generate_subsequences in H. cbn [length seq map concat] in H.
    apply NoDup_app in H as [H _]. rewrite combinations_1 in H.
    by apply NoDup_fmap_1 in H.
  - intros H. unfold generate_subsequences.
    generalize (seq_StronglySorted 1 (length l)).
    generalize (seq 1 (length l)). intros ks Hks.
    induction Hks as [|k ks Hks IH Hk]; cbn [map concat]; [constructor|].
    apply NoDup_app. split; [by apply combinations_NoDup|].
    split; [|exact IH].
    intros c Hc Hc'. apply list_elem_of_In in Hc, Hc'.
    apply in_concat in Hc' as (cs & Hcs & Hc').
    apply in_map_iff in Hcs as (k' & <- & Hk').
    apply combinations_length in Hc, Hc'.
    rewrite Forall_forall in Hk. apply list_elem_of_In, Hk in Hk'. lia.
Qed.

Example generate_subsequences_duplicate :
  generate_subsequences [1; 1] = [[1]; [1]; [1; 1]].
Proof. reflexivity. Qed.

(** X18.  A batch sent twice counts once: when
    [insert_subsequences_bulk] has returned on a list, the same list sent
    again, for any sequence identifier, returns 0 and stores nothing. *)
Theorem insert_subsequences_bulk_again (sid sid' : string)
    (l : list (list Z)) (w w1 : World) (count : Z) :
  insert_subsequences_bulk sid l w = (Returned count, w1) ->
  fst (insert_subsequences_bulk sid' l w1) = Returned 0 /\
  subsequences (snd (insert_subsequences_bulk sid' l w1)) = subsequences w1.
Proof.
  intros E. destruct l as [|s0 l]; [split; reflexivity|].
  assert (Hr : Forall (fun items => bson_ints items = true) (s0 :: l)).
  { apply forallb_Forall_true.
    destruct (forallb bson_ints (s0 :: l)) eqn:Hr; [reflexivity|].
    rewrite insert_subsequences_bulk_overflow in E by exact Hr.
    discriminate. }
  destruct (insert_subsequences_bulk_run sid (s0 :: l) w)
    as (res1 & _ & _ & _ & E1); [discriminate | exact Hr |].
  cbv zeta in E1. rewrite E in E1.
  apply (f_equal snd) in E1. cbn [snd] in E1. subst w1.
  set (w1 := mkWorld _ _ _ _ _ _).
  destruct (insert_subsequences_bulk_run sid' (s0 :: l) w1)
    as (res2 & _ & Hu & Hm & E2); [discriminate | exact Hr |].
  cbv zeta in E2, Hu.
  rewrite E2, Hu, Hm. cbn [fst snd subsequences].
  assert (Ep : put_all (subsequences w1, oid_counter w1)
                 (map (bulk_doc sid' (clock w1 (clock_reads w1))) (s0 :: l))
               = (subsequences w1, oid_counter w1)).
  { subst w1. cbn [subsequences oid_counter clock clock_reads].
    apply put_all_again. by rewrite !bulk_docs_hashes. }
  rewrite Ep. cbn [fst]. split; [f_equal; lia | reflexivity].
Qed.

Lemma insert_subsequences_bulk_again_witness :
  let w1 := snd (insert_subsequences_bulk "a" [[1]; [2; 1]] empty_world) in
  insert_subsequences_bulk "a" [[1]; [2; 1]] empty_world = (Returned 2, w1) /\
  fst (insert_subsequences_bulk "b" [[1]; [2; 1]] w1) = Returned 0.
Proof.
  intros w1.
  assert (E : insert_subsequences_bulk "a" [[1]; [2; 1]] empty_world
              = (Returned 2, w1))
    by (vm_compute; reflexivity).
  split; [exact E|].
  exact (proj1 (insert_subsequences_bulk_again "a" "b" [[1]; [2; 1]]
                  empty_world w1 2 E)).
Defined.
